(** * osync: the index / diff engine of [internal/index/index.go]

    A shallow embedding of the Go package [index] and the properties of
    [Load], [Compute], [Diff] and [Save].

    Go strings are byte sequences, so they are modelled by [string] (lists
    of 8-bit [ascii]).  A Go [map[string]string] is a [gmap string string];
    the order in which [range] visits a map is unspecified in Go, so every
    [range] loop over a map takes the visiting order as an explicit list,
    constrained by [ranges].  Calls that can return an error, panic or end
    the process are modelled by [outcome]. *)

From stdpp Require Import gmap strings list fin_maps.
From Stdlib Require Import ZArith Ascii.
From Stdlib Require String.

Local Open Scope Z_scope.
Local Open Scope list_scope.
Local Open Scope stdpp_scope.

(** ** Errors and outcomes of a call *)

(** Go [error] values that reach this package: errors of the operating
    system (kept abstract, named by their message) and the scanner's
    [bufio.ErrTooLong]. *)
Inductive error :=
| OSError (msg : string)
| ErrTooLong.

#[global] Instance error_eq_dec : EqDecision error.
Proof. solve_decision. Defined.

(** How a call ends: it returns a value with a nil error, it returns a
    non-nil error, it panics (a run-time panic that nothing recovers), or
    it ends the process ([log.Fatal] prints and calls [os.Exit(1)]). *)
Inductive outcome (A : Type) :=
| Return (a : A)
| Failure (e : error)
| Panic (msg : string)
| Fatal (e : error).

Arguments Return {A} a.
Arguments Failure {A} e.
Arguments Panic {A} msg.
Arguments Fatal {A} e.

Definition bind {A B} (k : A → outcome B) (c : outcome A) : outcome B :=
  match c with
  | Return a => k a
  | Failure e => Failure e
  | Panic msg => Panic msg
  | Fatal e => Fatal e
  end.

#[global] Instance outcome_ret : MRet outcome := λ A a, Return a.
#[global] Instance outcome_bind : MBind outcome := λ A B k c, bind k c.

(** A loop [for _, x := range xs { body }] whose body may end the call. *)
Fixpoint for_each {A S} (body : S → A → outcome S) (xs : list A) (s : S)
  : outcome S :=
  match xs with
  | [] => Return s
  | x :: xs' => s' ← body s x; for_each body xs' s'
  end.

(** ** The Index *)

(** [type Index struct { directory string; files map[string]string }] *)
Record Index := mkIndex {
  directory : string;
  files : gmap string string
}.

(** [m[k]] on a Go map: the zero value [""] when [k] is absent.  Reading
    never inserts. *)
Definition map_index (m : gmap string string) (k : string) : string :=
  default "" (m !! k).

(** [_, exist := m[k]] *)
Definition map_exist {V} (m : gmap string V) (k : string) : bool :=
  bool_decide (is_Some (m !! k)).

(** [o] is an order in which [for k, v := range m] may visit [m]: every
    entry exactly once, in any order. *)
Definition ranges (m : gmap string string) (o : list (string * string)) : Prop :=
  o ≡ₚ map_to_list m.

(** ** Diff *)

(** The variables [Diff] works on: the two maps it reads (the receiver's
    [i.files] and [other.files]) and its two result slices. *)
Record DiffState := mkDiffState {
  self_files : gmap string string;
  other_files : gmap string string;
  changedFiles : list string;
  deletedFiles : list string
}.

(** Body of [for file, sum := range other.files]. *)
Definition changed_step (s : DiffState) (kv : string * string) : DiffState :=
  let '(file, sum) := kv in
  if decide (map_index (self_files s) file ≠ sum)
  then mkDiffState (self_files s) (other_files s)
                   (changedFiles s ++ [file]) (deletedFiles s)
  else s.

(** Body of [for file, _ := range i.files]. *)
Definition deleted_step (s : DiffState) (kv : string * string) : DiffState :=
  let '(file, _) := kv in
  if negb (map_exist (other_files s) file)
  then mkDiffState (self_files s) (other_files s)
                   (changedFiles s) (deletedFiles s ++ [file])
  else s.

(** [func (i Index) Diff(other Index) ([]string, []string)], run to its
    final state; [ord_other] and [ord_i] are the orders in which the two
    [range] loops visit [other.files] and [i.files]. *)
Definition Diff_run (i other : Index) (ord_other ord_i : list (string * string))
  : DiffState :=
  let s0 := mkDiffState (files i) (files other) [] [] in
  let s1 := foldl changed_step s0 ord_other in
  foldl deleted_step s1 ord_i.

(** The pair [Diff] returns. *)
Definition Diff (i other : Index) (ord_other ord_i : list (string * string))
  : list string * list string :=
  let s := Diff_run i other ord_other ord_i in
  (changedFiles s, deletedFiles s).

(** ** Strings: the library calls the package makes *)

Definition LF : ascii := "010"%char.
Definition CR : ascii := "013"%char.
Definition colon : ascii := ":"%char.
Definition slash : ascii := "/"%char.

(** [strings.Split(s, sep)] for a one-byte separator: the fields between
    the occurrences of [sep]; never an empty slice. *)
Fixpoint Split (s : string) (sep : ascii) : list string :=
  match s with
  | EmptyString => [EmptyString]
  | String c r =>
      if decide (c = sep) then EmptyString :: Split r sep
      else match Split r sep with
           | h :: t => String c h :: t
           | [] => [String c EmptyString]
           end
  end.

(** [xs[n]] on a Go slice: a run-time panic when [n] is out of range. *)
Definition slice_index (xs : list string) (n : nat) : outcome string :=
  match xs !! n with
  | Some x => Return x
  | None => Panic "index out of range"
  end.

Fixpoint strip_prefix (prefix s : string) : option string :=
  match prefix, s with
  | EmptyString, _ => Some s
  | String a p, String b r => if decide (a = b) then strip_prefix p r else None
  | String _ _, EmptyString => None
  end.

(** [strings.TrimPrefix(s, prefix)]: [s] itself when it does not start
    with [prefix]. *)
Definition TrimPrefix (s prefix : string) : string :=
  default s (strip_prefix prefix s).

(** [fmt.Sprintf("%s:%s\n", file, sum)] *)
Definition format_entry (file sum : string) : string :=
  file +:+ String colon sum +:+ String LF EmptyString.

(** ** [bufio.Scanner] with the default split function [bufio.ScanLines] *)

(** The tokens of [ScanLines] before the trailing carriage return is
    dropped: the text between line feeds; a last line without a line feed
    is a token when it is not empty. *)
Fixpoint scan_tokens (data : string) : list string :=
  match data with
  | EmptyString => []
  | String c r =>
      if decide (c = LF) then EmptyString :: scan_tokens r
      else match scan_tokens r with
           | h :: t => String c h :: t
           | [] => [String c EmptyString]
           end
  end.

(** [dropCR] of package bufio: one trailing carriage return is removed. *)
Fixpoint dropCR (s : string) : string :=
  match s with
  | EmptyString => EmptyString
  | String c r =>
      match r with
      | EmptyString => if decide (c = CR) then EmptyString else s
      | String _ _ => String c (dropCR r)
      end
  end.

(** [bufio.MaxScanTokenSize]: the scanner's buffer never grows beyond it,
    and a line that does not fit ends the scan with [ErrTooLong]. *)
Definition MaxScanTokenSize : Z := 64 * 1024.

Definition token_fits (t : string) : bool :=
  bool_decide (Z.of_nat (String.length t) < MaxScanTokenSize).

(** ** The directory tree *)

(** What opening and reading a regular file does. *)
Inductive file :=
| Readable (data : string)
| OpenFails (e : error)
| ReadFails (e : error).

(** What [os.Lstat] finds at a path.  [Directory rd children]: [rd] is the
    error of listing the directory, if any; [children] are its entries in
    the order [filepath.Walk] visits them (it sorts the names).  [Special]
    is anything that is neither a regular file nor a directory (symbolic
    link, device, socket).  [NoStat e]: [Lstat] fails with [e]. *)
#[warnings="-register-all"] Inductive node :=
| Regular (f : file)
| Directory (rd : option error) (children : list (string * node))
| Special
| NoStat (e : error).

Definition ErrNotExist : error := OSError "no such file or directory".

(** [os.IsNotExist(err)], on the error of a system call or nil. *)
Definition os_IsNotExist (err : option error) : bool :=
  bool_decide (err = Some ErrNotExist).

Fixpoint get_child (name : string) (children : list (string * node))
  : option node :=
  match children with
  | [] => None
  | (k, n) :: rest => if decide (k = name) then Some n else get_child name rest
  end.

(** Creating or replacing an entry of a directory, keeping the names in
    increasing order. *)
Fixpoint put_child (name : string) (n : node) (children : list (string * node))
  : list (string * node) :=
  match children with
  | [] => [(name, n)]
  | (k, x) :: rest =>
      match String.compare name k with
      | Eq => (name, n) :: rest
      | Lt => (name, n) :: children
      | Gt => (k, x) :: put_child name n rest
      end
  end.

(** The entry [name] of the tree [fs] found at some directory path, that
    is what the path [filepath.Join(directory, name)] denotes. *)
Definition entry (fs : node) (name : string) : node :=
  match fs with
  | Directory _ children => default (NoStat ErrNotExist) (get_child name children)
  | Regular _ | Special => NoStat (OSError "not a directory")
  | NoStat e => NoStat e
  end.

(** The error of [os.Stat] on an entry (nil is [None]). *)
Definition os_Stat (n : node) : option error :=
  match n with
  | NoStat e => Some e
  | _ => None
  end.

(** What [os.Open] followed by reading does on an entry.  [os.Stat] and
    [os.Open] follow symbolic links: a link that leads to a file or a
    directory is, at the path of a marker file, that file or directory;
    a [Special] entry there stands for what cannot be opened for reading
    (a dangling link gives [NoStat]). *)
Definition os_Open (n : node) : file :=
  match n with
  | Regular f => f
  | Directory _ _ => ReadFails (OSError "is a directory")
  | Special => OpenFails (OSError "cannot be opened")
  | NoStat e => OpenFails e
  end.

(** [readLines(file)], on what its path denotes: the error of [os.Open],
    or the error of the scanner ([sc.Err()]), or the lines read. *)
Definition readLines (f : file) : outcome (list string) :=
  match f with
  | OpenFails e => Failure e
  | ReadFails e => Failure e
  | Readable data =>
      let tokens := scan_tokens data in
      if forallb token_fits tokens then Return (dropCR <$> tokens)
      else Failure ErrTooLong
  end.

(** ** Load *)

Definition indexFile : string := ".osync".
Definition ignoreFile : string := indexFile +:+ "ignore".

(** Body of [for _, line := range lines] in [Load]:
    [parts := strings.Split(line, ":"); index.files[parts[0]] = parts[1]]. *)
Definition load_line (m : gmap string string) (line : string)
  : outcome (gmap string string) :=
  let parts := Split line colon in
  p0 ← slice_index parts 0;
  p1 ← slice_index parts 1;
  Return (<[p0 := p1]> m).

(** [func Load(directory string) (Index, error)]; [fs] is the tree at
    [directory]. *)
Definition Load (directory : string) (fs : node) : outcome Index :=
  let indexPath := entry fs indexFile in
  if os_IsNotExist (os_Stat indexPath) then Return (mkIndex directory ∅)
  else
    lines ← readLines (os_Open indexPath);
    m ← for_each load_line lines ∅;
    Return (mkIndex directory m).

(** ** Save *)

(** [os.Create] on an entry of the tree [fs]: the error, or the tree with
    that entry an empty regular file.  As for [os_Open], a [Special] entry
    stands for what cannot be opened. *)
Definition os_Create (fs : node) (name : string) : error + node :=
  match fs with
  | Directory rd children =>
      match get_child name children with
      | None | Some (Regular (Readable _)) | Some (Regular (ReadFails _)) =>
          inr (Directory rd (put_child name (Regular (Readable EmptyString)) children))
      | Some (Regular (OpenFails e)) => inl e
      | Some (Directory _ _) => inl (OSError "is a directory")
      | Some Special => inl (OSError "cannot be opened")
      | Some (NoStat e) => inl e
      end
  | Regular _ | Special => inl (OSError "not a directory")
  | NoStat e => inl e
  end.

(** What the file system does with the bytes written to the file just
    created: [Unlimited] takes every byte; [Full room e] takes [room]
    bytes in all, and a write that goes beyond writes the bytes that
    still fit and fails with [e] (no space left, quota, input/output
    error). *)
Inductive device :=
| Unlimited
| Full (room : nat) (e : error).

Fixpoint take_bytes (n : nat) (s : string) : string :=
  match n, s with
  | S n', String c r => String c (take_bytes n' r)
  | _, _ => EmptyString
  end.

Fixpoint drop_bytes (n : nat) (s : string) : string :=
  match n, s with
  | S n', String _ r => drop_bytes n' r
  | _, _ => s
  end.

(** [file.Write] and [file.WriteString] on a file that holds [written]:
    the number of bytes written, the error, and what the file holds
    afterwards. *)
Definition file_write (dev : device) (written bs : string)
  : nat * option error * string :=
  match dev with
  | Unlimited => (String.length bs, None, written +:+ bs)
  | Full room e =>
      let free := (room - String.length written)%nat in
      if (String.length bs <=? free)%nat
      then (String.length bs, None, written +:+ bs)
      else (free, Some e, written +:+ take_bytes free bs)
  end.

(** A [bufio.Writer] on the file: its sticky error [b.err], the bytes it
    holds ([b.buf[0:b.n]]), and what the file under it holds. *)
Record Writer := mkWriter {
  w_err : option error;
  w_buf : string;
  w_file : string
}.

(** The size of the buffer of [bufio.NewWriter]. *)
Definition defaultBufSize : nat := 4096.

Definition Buffered (w : Writer) : nat := String.length (w_buf w).

Definition Available (w : Writer) : nat := (defaultBufSize - Buffered w)%nat.

(** [w.Flush()]: the bytes held are written to the file; when the write
    fails the bytes not written stay in the buffer and the error sticks. *)
Definition Flush (dev : device) (w : Writer) : option error * Writer :=
  match w_err w with
  | Some e => (Some e, w)
  | None =>
      if (Buffered w =? 0)%nat then (None, w)
      else
        let '(n, err, content) := file_write dev (w_file w) (w_buf w) in
        match err with
        | Some e => (Some e, mkWriter (Some e) (drop_bytes n (w_buf w)) content)
        | None => (None, mkWriter None EmptyString content)
        end
  end.

(** The loop of [w.WriteString(s)], run while [s] is longer than the room
    in the buffer and no error has occurred: with an empty buffer [s] goes
    to the file directly (an [*os.File] has [WriteString]); otherwise the
    buffer is filled up and flushed.  The loop ends within two rounds,
    which is the fuel [WriteString] gives it. *)
Fixpoint WriteString_loop (fuel : nat) (dev : device) (w : Writer) (s : string)
  : Writer * string :=
  match fuel with
  | O => (w, s)
  | S fuel' =>
      if (Available w <? String.length s)%nat && bool_decide (w_err w = None) then
        if (Buffered w =? 0)%nat then
          let '(n, err, content) := file_write dev (w_file w) s in
          WriteString_loop fuel' dev (mkWriter err (w_buf w) content)
                           (drop_bytes n s)
        else
          let n := Available w in
          let w1 := mkWriter (w_err w) (w_buf w +:+ take_bytes n s) (w_file w) in
          WriteString_loop fuel' dev (Flush dev w1).2 (drop_bytes n s)
      else (w, s)
  end.

(** [w.WriteString(s)]: after the loop the sticky error is returned, or
    the rest of [s] is copied into the buffer. *)
Definition WriteString (dev : device) (w : Writer) (s : string)
  : option error * Writer :=
  let '(w', s') := WriteString_loop 2 dev w s in
  match w_err w' with
  | Some e => (Some e, w')
  | None => (None, mkWriter None (w_buf w' +:+ s') (w_file w'))
  end.

(** The loop of [Save]: [for file, sum := range i.files], one
    [w.WriteString(fmt.Sprintf("%s:%s\n", file, sum))] per entry in the
    order [ord] in which the map is visited; the first error ends it. *)
Fixpoint save_entries (dev : device) (ord : list (string * string)) (w : Writer)
  : option error * Writer :=
  match ord with
  | [] => (None, w)
  | kv :: rest =>
      match WriteString dev w (format_entry kv.1 kv.2) with
      | (Some e, w') => (Some e, w')
      | (None, w') => save_entries dev rest w'
      end
  end.

(** The tree in which the entry [name] is a regular file holding [data]. *)
Definition with_file (fs : node) (name : string) (data : string) : node :=
  match fs with
  | Directory rd children =>
      Directory rd (put_child name (Regular (Readable data)) children)
  | _ => fs
  end.

(** The bytes [Save] hands to its writer: one [format_entry] per entry, in
    the order [ord] in which [for file, sum := range i.files] visits the
    map. *)
Definition save_bytes (ord : list (string * string)) : string :=
  foldl (λ buf kv, buf +:+ format_entry kv.1 kv.2) EmptyString ord.

(** [func (i Index) Save() error]; [fs] is the tree at [i.directory] and
    [dev] what the file system does with the writes.  The result is the
    error returned (nil is [None]) and the tree after the call.  The error
    of [os.Create] and the error of a [WriteString] are returned; the
    deferred [w.Flush()] runs on every return after the file was created
    and its error is dropped, as is the error of the deferred
    [file.Close()]: the file holds the bytes the file system took. *)
Definition Save (i : Index) (ord : list (string * string)) (dev : device)
    (fs : node) : option error * node :=
  match os_Create fs indexFile with
  | inl e => (Some e, fs)
  | inr fs0 =>
      let '(err, w) := save_entries dev ord (mkWriter None EmptyString EmptyString) in
      let '(_, w') := Flush dev w in
      (err, with_file fs0 indexFile (w_file w'))
  end.

(** The file system takes all of [data]. *)
Definition accepts (dev : device) (data : string) : Prop :=
  match dev with
  | Unlimited => True
  | Full room _ => (String.length data ≤ room)%nat
  end.

(** ** Paths: [path/filepath] on a Unix system *)

(** [strings.Join(xs, "/")] *)
Fixpoint join_slash (xs : list string) : string :=
  match xs with
  | [] => EmptyString
  | [x] => x
  | x :: rest => x +:+ String slash (join_slash rest)
  end.

(** The components [filepath.Clean] keeps, innermost first in [stack]:
    empty and [.] components are dropped, [..] removes the component
    before it, or stays when the path is not rooted and there is nothing
    to remove. *)
Fixpoint clean_components (rooted : bool) (stack cs : list string)
  : list string :=
  match cs with
  | [] => rev stack
  | c :: rest =>
      if decide (c = EmptyString ∨ c = ".") then clean_components rooted stack rest
      else if decide (c = "..") then
        match stack with
        | top :: below =>
            if decide (top = "..") then clean_components rooted (c :: stack) rest
            else clean_components rooted below rest
        | [] =>
            if rooted then clean_components rooted [] rest
            else clean_components rooted [c] rest
        end
      else clean_components rooted (c :: stack) rest
  end.

(** [filepath.Clean(path)] *)
Definition Clean (path : string) : string :=
  match path with
  | EmptyString => "."
  | String c _ =>
      let rooted := bool_decide (c = slash) in
      let out := join_slash (clean_components rooted [] (Split path slash)) in
      let out := if rooted then String slash out else out in
      if decide (out = EmptyString) then "." else out
  end.

(** [filepath.Join(a, b)] *)
Definition Join (a b : string) : string :=
  match a, b with
  | EmptyString, EmptyString => EmptyString
  | EmptyString, _ => Clean b
  | _, _ => Clean (a +:+ String slash b)
  end.

(** ** SHA-1 ([crypto/sha1]) and its hexadecimal form *)

Definition w32 (x : Z) : Z := x mod 2 ^ 32.

Definition rotl (n x : Z) : Z :=
  w32 (Z.lor (Z.shiftl x n) (Z.shiftr x (32 - n))).

Definition bytes_of_string (s : string) : list Z :=
  (λ c, Z.of_N (N_of_ascii c)) <$> String.list_ascii_of_string s.

(** Big-endian bytes of [x], [n] of them. *)
Fixpoint be_bytes (n : nat) (x : Z) : list Z :=
  match n with
  | O => []
  | S n' => Z.shiftr x (8 * Z.of_nat n') mod 256 :: be_bytes n' x
  end.

(** The message followed by the bit 1, zeros up to 56 modulo 64 bytes, and
    its length in bits on 64 bits. *)
Definition sha1_pad (msg : list Z) : list Z :=
  let len := Z.of_nat (List.length msg) in
  let zeros := Z.to_nat ((55 - len) mod 64) in
  msg ++ [128] ++ replicate zeros 0 ++ be_bytes 8 (8 * len).

(** Big-endian 32-bit words of a byte sequence. *)
Fixpoint words_of_bytes (fuel : nat) (bs : list Z) : list Z :=
  match fuel, bs with
  | S fuel', b0 :: b1 :: b2 :: b3 :: rest =>
      (((b0 * 256 + b1) * 256 + b2) * 256 + b3) :: words_of_bytes fuel' rest
  | _, _ => []
  end.

Fixpoint chunks16 (fuel : nat) (ws : list Z) : list (list Z) :=
  match fuel, ws with
  | S fuel', _ :: _ => take 16 ws :: chunks16 fuel' (drop 16 ws)
  | _, _ => []
  end.

(** The message schedule: [n] more words after [w]. *)
Fixpoint sha1_schedule (n : nat) (w : list Z) : list Z :=
  match n with
  | O => w
  | S n' =>
      let t := List.length w in
      let x := Z.lxor (Z.lxor (nth (t - 3) w 0) (nth (t - 8) w 0))
                      (Z.lxor (nth (t - 14) w 0) (nth (t - 16) w 0)) in
      sha1_schedule n' (w ++ [rotl 1 x])
  end.

Record sha1_state := mkSha1 { hA : Z; hB : Z; hC : Z; hD : Z; hE : Z }.

Definition sha1_round (st : sha1_state * nat) (wt : Z) : sha1_state * nat :=
  let '(mkSha1 a b c d e, t) := st in
  let '(f, k) :=
    if (t <? 20)%nat then (Z.lor (Z.land b c) (Z.land (Z.lxor b 4294967295) d), 1518500249)
    else if (t <? 40)%nat then (Z.lxor (Z.lxor b c) d, 1859775393)
    else if (t <? 60)%nat
      then (Z.lor (Z.lor (Z.land b c) (Z.land b d)) (Z.land c d), 2400959708)
    else (Z.lxor (Z.lxor b c) d, 3395469782) in
  (mkSha1 (w32 (rotl 5 a + f + e + k + wt)) a (rotl 30 b) c d, S t).

Definition sha1_block (h : sha1_state) (block : list Z) : sha1_state :=
  let '(mkSha1 a b c d e, _) := foldl sha1_round (h, O) (sha1_schedule 64 block) in
  mkSha1 (w32 (hA h + a)) (w32 (hB h + b)) (w32 (hC h + c))
         (w32 (hD h + d)) (w32 (hE h + e)).

Definition sha1_init : sha1_state :=
  mkSha1 1732584193 4023233417 2562383102 271733878 3285377520.

(** The 20 bytes of the digest of [msg]. *)
Definition sha1 (msg : list Z) : list Z :=
  let bs := sha1_pad msg in
  let ws := words_of_bytes (List.length bs) bs in
  let h := foldl sha1_block sha1_init (chunks16 (List.length ws) ws) in
  be_bytes 4 (hA h) ++ be_bytes 4 (hB h) ++ be_bytes 4 (hC h)
  ++ be_bytes 4 (hD h) ++ be_bytes 4 (hE h).

Definition hex_digit (d : Z) : ascii :=
  if d <? 10 then ascii_of_N (Z.to_N (48 + d)) else ascii_of_N (Z.to_N (87 + d)).

(** [fmt.Sprintf("%x", bytes)]: two lower-case digits per byte. *)
Fixpoint hex (bs : list Z) : string :=
  match bs with
  | [] => EmptyString
  | b :: rest => String (hex_digit (b / 16)) (String (hex_digit (b mod 16)) (hex rest))
  end.

(** [sha1sum(file)], on what its path denotes: the error of [os.Open] is
    returned; an error of [io.Copy] goes to [log.Fatal]. *)
Definition sha1sum (f : file) : outcome string :=
  match f with
  | OpenFails e => Failure e
  | ReadFails e => Fatal e
  | Readable data => Return (hex (sha1 (bytes_of_string data)))
  end.

(** ** Compute *)

(** [filepath.Walk(root, fn)] on the tree [info] found at [path], with the
    callback's captured variables as the state [s].  [fn] gets the path,
    the [os.FileInfo] (nil is [None]) and the error so far.  A path whose
    [Lstat] fails is handed to [fn] with a nil [FileInfo]; a directory is
    handed to [fn] with the error of listing it, and its entries are
    walked only when both that error and the callback's are nil.  The
    walk stops at the first error a callback returns (the callbacks of
    this package never return [filepath.SkipDir]). *)
Fixpoint walk {S} (fn : string → option node → option error → S → outcome S)
    (path : string) (info : node) (s : S) : outcome S :=
  match info with
  | NoStat e => fn path None (Some e) s
  | Directory (Some err) _ => fn path (Some info) (Some err) s
  | Directory None children =>
      s1 ← fn path (Some info) None s;
      (fix walk_names (names : list (string * node)) (s : S) : outcome S :=
         match names with
         | [] => Return s
         | (name, child) :: rest =>
             s' ← walk fn (Join path name) child s;
             walk_names rest s'
         end) children s1
  | Regular _ | Special => fn path (Some info) None s
  end.

(** [info.Mode().IsRegular()] *)
Definition IsRegular (info : node) : bool :=
  match info with
  | Regular _ => true
  | _ => false
  end.

(** The function literal [Compute] hands to [filepath.Walk]; it captures
    [directory] and [ignoredFiles] and updates [index.files].  Its [err]
    argument is not looked at, and [info.Mode()] on a nil [info] is a nil
    dereference. *)
Definition visit (directory : string) (ignoredFiles : gmap string bool)
    (path : string) (info : option node) (err : option error)
    (index_files : gmap string string) : outcome (gmap string string) :=
  match info with
  | None => Panic "invalid memory address or nil pointer dereference"
  | Some n =>
      if IsRegular n then
        let localPath := TrimPrefix path (directory +:+ "/") in
        if map_exist ignoredFiles localPath then Return index_files
        else
          sum ← sha1sum (os_Open n);
          Return (<[localPath := sum]> index_files)
      else Return index_files
  end.

(** The ignore set: [for _, line := range lines { ignoredFiles[line] = true }] *)
Definition ignore_lines (lines : list string) : gmap string bool :=
  foldl (λ m line, <[line := true]> m) ∅ lines.

(** [func Compute(directory string) (Index, error)]; [fs] is the tree at
    [directory]. *)
Definition Compute (directory : string) (fs : node) : outcome Index :=
  let ignorePath := entry fs ignoreFile in
  ignoredFiles ←
    match os_Stat ignorePath with
    | None => lines ← readLines (os_Open ignorePath); Return (ignore_lines lines)
    | Some _ => Return ∅
    end;
  m ← walk (visit directory ignoredFiles) directory fs ∅;
  Return (mkIndex directory m).

(** The directory of the package's own test [TestCompute]: files [a] and
    [b] holding their names, and the ignore file listing [b]. *)
Definition test_tree : node :=
  Directory None
    [(".osyncignore", Regular (Readable "b"));
     ("a", Regular (Readable "a"));
     ("b", Regular (Readable "b"))].

(** The entries the first loop of [Diff] appends, against the receiver's
    map [mi], and those the second loop appends, against the argument's
    map [mo]. *)
Definition is_changed (mi : gmap string string) (kv : string * string) : Prop :=
  map_index mi kv.1 ≠ kv.2.

Definition is_deleted (mo : gmap string string) (kv : string * string) : Prop :=
  mo !! kv.1 = None.

#[global] Instance is_changed_dec mi kv : Decision (is_changed mi kv).
Proof. unfold is_changed. apply _. Defined.

#[global] Instance is_deleted_dec mo kv : Decision (is_deleted mo kv).
Proof. unfold is_deleted. apply _. Defined.


(** ** Vocabulary of the statements about the persisted file *)

Fixpoint contains_byte (c : ascii) (s : string) : bool :=
  match s with
  | EmptyString => false
  | String a r => bool_decide (a = c) || contains_byte c r
  end.

Fixpoint ends_with_CR (s : string) : bool :=
  match s with
  | EmptyString => false
  | String c r =>
      match r with
      | EmptyString => bool_decide (c = CR)
      | String _ _ => ends_with_CR r
      end
  end.

(** The line [Save] writes for an entry, without its line feed. *)
Definition line_of (kv : string * string) : string :=
  kv.1 +:+ String colon kv.2.

(** An entry the text format carries unchanged: no separator and no line
    feed in the path or the fingerprint, no carriage return at the end of
    the line, and a line the scanner's buffer can hold. *)
Definition storable_entry (kv : string * string) : Prop :=
  contains_byte colon kv.1 = false ∧ contains_byte LF kv.1 = false
  ∧ contains_byte colon kv.2 = false ∧ contains_byte LF kv.2 = false
  ∧ ends_with_CR kv.2 = false
  ∧ Z.of_nat (String.length kv.1) + 1 + Z.of_nat (String.length kv.2)
    < MaxScanTokenSize.

Definition storable (m : gmap string string) : Prop :=
  ∀ k v, m !! k = Some v → storable_entry (k, v).

(** The split on the first separator, as the specification words it:
    the text before the first [:] and all the text after it; nothing for
    a line without [:]. *)
Fixpoint split_first_colon (line : string) : option (string * string) :=
  match line with
  | EmptyString => None
  | String c r =>
      if decide (c = colon) then Some (EmptyString, r)
      else (λ pf : string * string, (String c pf.1, pf.2)) <$> split_first_colon r
  end.

(** The text before the first [:], all of it when there is none. *)
Fixpoint until_colon (s : string) : string :=
  match s with
  | EmptyString => EmptyString
  | String c r => if decide (c = colon) then EmptyString else String c (until_colon r)
  end.

(** The entry a line with a separator stands for in [Load]: the path is
    the text before the first [:], the fingerprint the text between the
    first [:] and the next one. *)
Definition line_entry (m : gmap string string) (line : string)
  : gmap string string :=
  match split_first_colon line with
  | Some (path, rest) => <[path := until_colon rest]> m
  | None => m
  end.

(** The bytes of the persisted index file in the tree [fs], when it is a
    readable regular file. *)
Definition index_bytes (fs : node) : option string :=
  match entry fs indexFile with
  | Regular (Readable data) => Some data
  | _ => None
  end.

(** A name of a directory entry: not empty, no [/], neither [.] nor [..]. *)
Definition simple_name (name : string) : Prop :=
  contains_byte slash name = false
  ∧ name ≠ EmptyString ∧ name ≠ "." ∧ name ≠ "..".

(** A directory path [filepath.Join] extends by plain concatenation: a
    clean path other than the root [/] and the current directory [.]. *)
Definition plain_directory (d : string) : Prop :=
  Clean d = d ∧ d ≠ "/" ∧ d ≠ ".".

(** [Save], then [Load] from the same root: the error [Save] returns and
    how [Load] ends on the tree [Save] leaves. *)
Definition save_then_load (i : Index) (ord : list (string * string))
    (dev : device) (fs : node) : option error * outcome Index :=
  ((Save i ord dev fs).1, Load (directory i) (Save i ord dev fs).2).

(** The condition of the loop of [WriteString]:
    [len(s) > b.Available() && b.err == nil]. *)
Definition loop_cond (w : Writer) (s : string) : bool :=
  (Available w <? String.length s)%nat && bool_decide (w_err w = None).

(** A string of [n] bytes [c]. *)
Fixpoint repeat_byte (c : ascii) (n : nat) : string :=
  match n with
  | O => EmptyString
  | S n' => String c (repeat_byte c n')
  end.

(** ** Vocabulary of the statements about whole trees *)

(** Induction on trees, with the property known for every entry of a
    directory. *)
Fixpoint node_forall_ind (P : node → Prop)
    (Hreg : ∀ f, P (Regular f))
    (Hdir : ∀ rd children,
        Forall (λ c : string * node, P c.2) children → P (Directory rd children))
    (Hspecial : P Special)
    (Hnostat : ∀ e, P (NoStat e))
    (n : node) : P n :=
  match n with
  | Regular f => Hreg f
  | Directory rd children =>
      Hdir rd children
        ((fix go (l : list (string * node)) : Forall (λ c, P c.2) l :=
            match l with
            | [] => @List.Forall_nil _ (λ c, P c.2)
            | c :: l' =>
                @List.Forall_cons _ (λ c, P c.2) c l'
                  (node_forall_ind P Hreg Hdir Hspecial Hnostat c.2) (go l')
            end) children)
  | Special => Hspecial
  | NoStat e => Hnostat e
  end.

#[global] Instance simple_name_dec name : Decision (simple_name name).
Proof. unfold simple_name. apply _. Defined.

(** A tree [Compute] walks without an error: every regular file can be
    read, every path can be examined, and the names in the directories
    are plain names. *)
Fixpoint hashable (n : node) : bool :=
  match n with
  | Regular (Readable _) => true
  | Regular _ => false
  | Directory _ children =>
      forallb (λ c : string * node, bool_decide (simple_name c.1) && hashable c.2)
              children
  | Special => true
  | NoStat _ => false
  end.

(** The regular files of the tree found at the relative path [rel], with
    their relative paths and contents, in the order of the walk.  A
    directory that cannot be listed contributes nothing. *)
Fixpoint node_entries (rel : string) (n : node) : list (string * string) :=
  match n with
  | Regular (Readable data) => [(rel, data)]
  | Regular _ => []
  | Directory None children =>
      children ≫= (λ c : string * node,
                      node_entries (rel +:+ String slash c.1) c.2)
  | Directory (Some _) _ => []
  | Special => []
  | NoStat _ => []
  end.

(** The regular files below a root directory, relative to it. *)
Definition root_entries (children : list (string * node))
  : list (string * string) :=
  children ≫= (λ c : string * node, node_entries c.1 c.2).

(** Entering files into the index unless the ignore set has their path. *)
Definition index_entries (ign : gmap string bool) (m : gmap string string)
    (l : list (string * string)) : gmap string string :=
  foldl (λ m e, if map_exist ign e.1 then m
                else <[e.1 := hex (sha1 (bytes_of_string e.2))]> m) m l.

(** The first part of [Compute]: the ignore set read from the ignore
    file, empty when [os.Stat] on it fails. *)
Definition ignore_outcome (fs : node) : outcome (gmap string bool) :=
  let ignorePath := entry fs ignoreFile in
  match os_Stat ignorePath with
  | None => lines ← readLines (os_Open ignorePath); Return (ignore_lines lines)
  | Some _ => Return ∅
  end.

Definition is_lower_hex (c : ascii) : bool :=
  match c with
  | "0" | "1" | "2" | "3" | "4" | "5" | "6" | "7" | "8" | "9"
  | "a" | "b" | "c" | "d" | "e" | "f" => true
  | _ => false
  end%char.

Fixpoint string_forall (P : ascii → bool) (s : string) : bool :=
  match s with
  | EmptyString => true
  | String c r => P c && string_forall P r
  end.


(** The path a line of the persisted file is entered under, if any. *)
Definition line_path (line : string) : option string :=
  fst <$> split_first_colon line.

(** The entries [Load] can hold: no separator and no line feed. *)
Definition clean_entries (m : gmap string string) : Prop :=
  ∀ k v, m !! k = Some v →
    contains_byte colon k = false ∧ contains_byte colon v = false
    ∧ contains_byte LF k = false ∧ contains_byte LF v = false.


(** The form of the fingerprints [Compute] records: the 40 lower-case
    hexadecimal digits of a SHA-1. *)
Definition sha1_hex (v : string) : Prop :=
  String.length v = 40%nat ∧ string_forall is_lower_hex v = true.

(** A directory path [filepath.Clean] leaves as it is, other than the
    root [/].  (The empty path names no directory: [Clean] makes it [.].) *)
Definition clean_directory (d : string) : Prop :=
  Clean d = d ∧ d ≠ "/".

(** The callback of [Compute] cuts [path], and every path below it, down
    to [rel] and what follows:
    [strings.TrimPrefix(path+s, directory+"/")] is [rel+s]. *)
Definition located (d path rel : string) : Prop :=
  ∀ s, TrimPrefix (path +:+ s) (d +:+ "/") = rel +:+ s.

(** The directory paths under which the callback of [Compute] cuts the
    paths of the walk down to relative ones: a path [filepath.Clean]
    leaves as it is, other than the root [/], or a path [Clean] turns
    into the current directory [.] (such as [./]; [Clean] does so with
    the empty path too, under which no directory is found). *)
Definition relative_root (d : string) : Prop :=
  Clean d = "." ∨ (Clean d = d ∧ d ≠ "/").

#[global] Instance relative_root_dec d : Decision (relative_root d).
Proof. unfold relative_root. apply _. Defined.

(* ================================================================== *)
(** * Properties *)

(** ** Iteration orders of a map *)

Lemma ranges_intro (m : gmap string string) (o : list (string * string)) :
  NoDup o.*1 → list_to_map o = m → ranges m o.
Proof.
  intros Hnd <-. unfold ranges. symmetry. by apply map_to_list_to_map.
Qed.

Lemma ranges_NoDup (m : gmap string string) o : ranges m o → NoDup o.*1.
Proof.
  unfold ranges. intros ->. apply NoDup_fst_map_to_list.
Qed.

Lemma ranges_elem_of (m : gmap string string) o k v :
  ranges m o → (k, v) ∈ o ↔ m !! k = Some v.
Proof.
  unfold ranges. intros ->. apply elem_of_map_to_list.
Qed.

Lemma ranges_list_to_map (m : gmap string string) o :
  ranges m o → list_to_map o = m.
Proof.
  intros Hr. rewrite <- (list_to_map_to_list m).
  apply list_to_map_proper; [by eapply ranges_NoDup | exact Hr].
Qed.

(** ** Diff: what the two loops compute *)

Section diff_loops.
Context (mi mo : gmap string string).

Lemma changed_loop l cs ds :
  foldl changed_step (mkDiffState mi mo cs ds) l
  = mkDiffState mi mo (cs ++ (filter (is_changed mi) l).*1) ds.
Proof.
  revert cs. induction l as [|[k v] l IH]; intros cs; simpl.
  - by rewrite app_nil_r.
  - rewrite filter_cons. unfold is_changed at 1. simpl.
    destruct (decide (map_index mi k ≠ v)); simpl.
    + rewrite IH. by rewrite <- app_assoc.
    + apply IH.
Qed.

Lemma deleted_loop l cs ds :
  foldl deleted_step (mkDiffState mi mo cs ds) l
  = mkDiffState mi mo cs (ds ++ (filter (is_deleted mo) l).*1).
Proof.
  revert ds. induction l as [|[k v] l IH]; intros ds; simpl.
  - by rewrite app_nil_r.
  - rewrite filter_cons. unfold is_deleted at 1, map_exist. simpl.
    destruct (decide (mo !! k = None)) as [Hn|Hn]; simpl.
    + rewrite bool_decide_eq_false_2; [|rewrite Hn; by intros [? ?]].
      simpl. rewrite IH. by rewrite <- app_assoc.
    + rewrite bool_decide_eq_true_2; [|by apply not_eq_None_Some].
      simpl. apply IH.
Qed.
End diff_loops.

Lemma Diff_run_eq i other oo oi :
  Diff_run i other oo oi
  = mkDiffState (files i) (files other)
      (filter (is_changed (files i)) oo).*1
      (filter (is_deleted (files other)) oi).*1.
Proof.
  unfold Diff_run. simpl. rewrite changed_loop, deleted_loop. reflexivity.
Qed.

Lemma elem_of_changed i other oo oi p :
  ranges (files other) oo →
  p ∈ (Diff i other oo oi).1
  ↔ ∃ sum, files other !! p = Some sum ∧ map_index (files i) p ≠ sum.
Proof.
  intros Hr. unfold Diff. rewrite Diff_run_eq. simpl.
  rewrite list_elem_of_fmap. split.
  - intros [[k v] [-> [Hc Hin]%list_elem_of_filter]].
    exists v. split; [by apply (ranges_elem_of _ oo)|exact Hc].
  - intros [sum [Hl Hc]]. exists (p, sum). split; [done|].
    apply list_elem_of_filter. split; [exact Hc|by apply (ranges_elem_of (files other))].
Qed.

Lemma elem_of_deleted i other oo oi p :
  ranges (files i) oi →
  p ∈ (Diff i other oo oi).2
  ↔ is_Some (files i !! p) ∧ files other !! p = None.
Proof.
  intros Hr. unfold Diff. rewrite Diff_run_eq. simpl.
  rewrite list_elem_of_fmap. split.
  - intros [[k v] [-> [Hc Hin]%list_elem_of_filter]].
    split; [exists v; by apply (ranges_elem_of _ oi)|exact Hc].
  - intros [[v Hl] Hc]. exists (p, v). split; [done|].
    apply list_elem_of_filter. split; [exact Hc|by apply (ranges_elem_of (files i))].
Qed.

Lemma NoDup_fst_filter (P : string * string → Prop) `{!∀ x, Decision (P x)}
    (l : list (string * string)) :
  NoDup l.*1 → NoDup (filter P l).*1.
Proof.
  induction l as [|[k v] l IH]; simpl; [constructor|].
  intros [Hk Hnd]%NoDup_cons. rewrite filter_cons.
  destruct (decide (P (k, v))); [|by apply IH].
  simpl. apply NoDup_cons. split; [|by apply IH].
  intros [[k' v'] [Heq [_ Hin]%list_elem_of_filter]]%list_elem_of_fmap.
  simpl in Heq. subst k'. apply Hk. apply list_elem_of_fmap. by exists (k, v').
Qed.

Lemma Diff_NoDup i other oo oi :
  ranges (files other) oo → ranges (files i) oi →
  NoDup (Diff i other oo oi).1 ∧ NoDup (Diff i other oo oi).2.
Proof.
  intros Ho Hi. unfold Diff. rewrite Diff_run_eq. simpl.
  split; apply NoDup_fst_filter; by eapply ranges_NoDup.
Qed.

(** ** Diff: the claims *)

(** C8.  Comparing an Index with itself gives an empty changed list and
    an empty deleted list, whatever the orders in which the two loops
    visit the map. *)
Theorem Diff_self_empty (X : Index) (oo oi : list (string * string)) :
  ranges (files X) oo → ranges (files X) oi →
  Diff X X oo oi = ([], []).
Proof.
  intros Ho Hi.
  assert (Hc : (Diff X X oo oi).1 = []).
  { apply elem_of_nil_inv. intros p [sum [Hl Hne]]%elem_of_changed; [|done].
    apply Hne. unfold map_index. by rewrite Hl. }
  assert (Hd : (Diff X X oo oi).2 = []).
  { apply elem_of_nil_inv. intros p [[v Hl] Hn]%elem_of_deleted; [|done].
    congruence. }
  destruct (Diff X X oo oi) as [cs ds]. simpl in *. by subst.
Qed.

Lemma Diff_self_empty_witness :
  let X := mkIndex "/srv/site" {["a" := "a"; "b" := "b"]} in
  ranges (files X) [("a", "a"); ("b", "b")]
  ∧ ranges (files X) [("b", "b"); ("a", "a")]
  ∧ Diff X X [("a", "a"); ("b", "b")] [("b", "b"); ("a", "a")] = ([], []).
Proof.
  assert (H1 : ranges {["a" := "a"; "b" := "b"]} [("a", "a"); ("b", "b")]).
  { apply ranges_intro; [by apply (bool_decide_unpack _)|reflexivity]. }
  assert (H2 : ranges {["a" := "a"; "b" := "b"]} [("b", "b"); ("a", "a")]).
  { apply ranges_intro; [by apply (bool_decide_unpack _)|by vm_compute]. }
  split; [exact H1|]. split; [exact H2|].
  apply (Diff_self_empty (mkIndex "/srv/site" {["a" := "a"; "b" := "b"]}));
    [exact H1|exact H2].
Defined.

Lemma map_index_insert_empty (m : gmap string string) p k :
  m !! p = None → map_index (<[p := ""]> m) k = map_index m k.
Proof.
  intros Hn. unfold map_index. destruct (decide (p = k)) as [->|Hne].
  - by rewrite lookup_insert_eq, Hn.
  - by rewrite lookup_insert_ne.
Qed.

(** C9.  [Diff] reads a missing entry of the previous Index as the empty
    fingerprint: its changed list is the one it computes when the missing
    path is entered with fingerprint [""], and so a path that is new in
    current with the empty fingerprint is not in the changed list. *)
Theorem Diff_missing_is_empty_fingerprint (previous current : Index)
    (oo oi oi' : list (string * string)) (p : string) :
  ranges (files current) oo →
  files previous !! p = None →
  (Diff (mkIndex (directory previous) (<[p := ""]> (files previous)))
        current oo oi').1
  = (Diff previous current oo oi).1
  ∧ (files current !! p = Some "" → p ∉ (Diff previous current oo oi).1).
Proof.
  intros Ho Hn. split.
  - unfold Diff. rewrite !Diff_run_eq. simpl. f_equal.
    apply list_filter_iff. intros [k v]. unfold is_changed. simpl.
    by rewrite map_index_insert_empty.
  - intros Hc [sum [Hl Hne]]%elem_of_changed; [|done].
    apply Hne. unfold map_index. rewrite Hn. simpl. congruence.
Qed.

Lemma Diff_missing_is_empty_fingerprint_witness :
  let previous := mkIndex "/srv/site" {["a" := "1"]} in
  let current := mkIndex "/srv/site" {["a" := "1"; "p" := ""]} in
  ranges (files current) [("a", "1"); ("p", "")]
  ∧ files previous !! "p" = None
  ∧ files current !! "p" = Some ""
  ∧ "p" ∉ (Diff previous current [("a", "1"); ("p", "")] [("a", "1")]).1.
Proof.
  assert (H1 : ranges {["a" := "1"; "p" := ""]} [("a", "1"); ("p", "")]).
  { apply ranges_intro; [by apply (bool_decide_unpack _)|reflexivity]. }
  split; [exact H1|]. split; [reflexivity|]. split; [reflexivity|].
  apply (Diff_missing_is_empty_fingerprint
           (mkIndex "/srv/site" {["a" := "1"]})
           (mkIndex "/srv/site" {["a" := "1"; "p" := ""]})
           [("a", "1"); ("p", "")] [("a", "1")] [] "p");
    [exact H1|reflexivity|reflexivity].
Defined.

(** C10.  The lists [Diff] returns depend only on the two [files] maps:
    two runs on index pairs with equal maps, whatever their directories
    and whatever the iteration orders, return the same changed set and
    the same deleted set (the lists are permutations of each other); and
    the run leaves both maps as they were. *)
Theorem Diff_depends_on_files_only (i i' other other' : Index)
    (oo oi oo' oi' : list (string * string)) :
  files i = files i' → files other = files other' →
  ranges (files other) oo → ranges (files i) oi →
  ranges (files other') oo' → ranges (files i') oi' →
  let s := Diff_run i other oo oi in
  let s' := Diff_run i' other' oo' oi' in
  list_to_set (changedFiles s) =@{gset string} list_to_set (changedFiles s')
  ∧ list_to_set (deletedFiles s) =@{gset string} list_to_set (deletedFiles s')
  ∧ changedFiles s ≡ₚ changedFiles s'
  ∧ deletedFiles s ≡ₚ deletedFiles s'
  ∧ self_files s = files i ∧ other_files s = files other.
Proof.
  intros Ei Eo Ho Hi Ho' Hi'. simpl. rewrite !Diff_run_eq. simpl.
  rewrite <- Ei, <- Eo in *.
  assert (Hoo : oo ≡ₚ oo') by (unfold ranges in *; by rewrite Ho, Ho').
  assert (Hii : oi ≡ₚ oi') by (unfold ranges in *; by rewrite Hi, Hi').
  assert (Hc : (filter (is_changed (files i)) oo).*1
               ≡ₚ (filter (is_changed (files i)) oo').*1) by (by rewrite Hoo).
  assert (Hd : (filter (is_deleted (files other)) oi).*1
               ≡ₚ (filter (is_deleted (files other)) oi').*1) by (by rewrite Hii).
  repeat split; try done.
  - by rewrite Hc.
  - by rewrite Hd.
Qed.

Lemma Diff_depends_on_files_only_witness :
  let i := mkIndex "/srv/one" {["a" := "a"; "b" := "b"]} in
  let i' := mkIndex "/srv/two" {["a" := "a"; "b" := "b"]} in
  let other := mkIndex "/srv/one" {["a" := "1"; "c" := "c"]} in
  let other' := mkIndex "/mnt/three" {["a" := "1"; "c" := "c"]} in
  let s := Diff_run i other [("a", "1"); ("c", "c")] [("a", "a"); ("b", "b")] in
  let s' := Diff_run i' other' [("c", "c"); ("a", "1")] [("b", "b"); ("a", "a")] in
  list_to_set (changedFiles s) =@{gset string} list_to_set (changedFiles s')
  ∧ list_to_set (deletedFiles s) =@{gset string} list_to_set (deletedFiles s')
  ∧ changedFiles s ≡ₚ changedFiles s'
  ∧ deletedFiles s ≡ₚ deletedFiles s'
  ∧ self_files s = files i ∧ other_files s = files other.
Proof.
  apply (Diff_depends_on_files_only
           (mkIndex "/srv/one" {["a" := "a"; "b" := "b"]})
           (mkIndex "/srv/two" {["a" := "a"; "b" := "b"]})
           (mkIndex "/srv/one" {["a" := "1"; "c" := "c"]})
           (mkIndex "/mnt/three" {["a" := "1"; "c" := "c"]}));
    try reflexivity;
    (apply ranges_intro; [by apply (bool_decide_unpack _)|by vm_compute]).
Defined.

(** The package's own test [TestIndex_Diff]: [a] has changed, [c] is new,
    [b] has been removed. *)
Example Diff_test :
  Diff (mkIndex "" {["a" := "a"; "b" := "b"]})
       (mkIndex "" {["a" := "1"; "c" := "c"]})
       [("c", "c"); ("a", "1")] [("a", "a"); ("b", "b")]
  = (["c"; "a"], ["b"]).
Proof. by vm_compute. Qed.

(** C1, at the input where the code leaves it.  A path that is new in
    current and carries the empty fingerprint is in neither list: the
    lookup [i.files[file]] of the missing path gives [""], which equals
    the fingerprint. *)
Theorem Diff_misses_new_path_with_empty_fingerprint :
  let previous := mkIndex "/srv/site" ∅ in
  let current := mkIndex "/srv/site" {["p" := ""]} in
  ranges (files current) [("p", "")] ∧ ranges (files previous) []
  ∧ files current !! "p" = Some "" ∧ files previous !! "p" = None
  ∧ Diff previous current [("p", "")] [] = ([], []).
Proof.
  simpl. repeat split.
  - apply ranges_intro; [by apply (bool_decide_unpack _)|reflexivity].
  - apply ranges_intro; [constructor|reflexivity].
Qed.

(** ** Strings *)

Lemma app_cons c s t : String c s +:+ t = String c (s +:+ t).
Proof. reflexivity. Qed.

Lemma app_nil_l' t : EmptyString +:+ t = t.
Proof. reflexivity. Qed.

Lemma string_app_nil_r s : s +:+ EmptyString = s.
Proof. induction s as [|c s IH]; [done|]. by rewrite app_cons, IH. Qed.

Lemma string_app_assoc s t u : (s +:+ t) +:+ u = s +:+ (t +:+ u).
Proof. induction s as [|c s IH]; [done|]. by rewrite !app_cons, IH. Qed.

Lemma string_length_app s t :
  String.length (s +:+ t) = (String.length s + String.length t)%nat.
Proof. induction s as [|c s IH]; [done|]. rewrite app_cons. simpl. by rewrite IH. Qed.

Lemma contains_byte_app c s t :
  contains_byte c (s +:+ t) = contains_byte c s || contains_byte c t.
Proof.
  induction s as [|a s IH]; [done|]. rewrite app_cons. simpl.
  by rewrite IH, orb_assoc.
Qed.

Lemma contains_byte_cons_false c a s :
  contains_byte c (String a s) = false ↔ a ≠ c ∧ contains_byte c s = false.
Proof.
  simpl. rewrite orb_false_iff, bool_decide_eq_false. reflexivity.
Qed.

Lemma Split_no_sep s sep : contains_byte sep s = false → Split s sep = [s].
Proof.
  induction s as [|a s IH]; [done|].
  intros [Hne Hs]%contains_byte_cons_false. simpl.
  rewrite decide_False by done. by rewrite IH.
Qed.

Lemma Split_app s t sep :
  contains_byte sep s = false →
  Split (s +:+ String sep t) sep = s :: Split t sep.
Proof.
  induction s as [|a s IH].
  - intros _. rewrite app_nil_l'. simpl. by rewrite decide_True.
  - intros [Hne Hs]%contains_byte_cons_false. rewrite app_cons. simpl.
    rewrite decide_False by done. by rewrite IH.
Qed.

Lemma Split_first s :
  Split s colon
  = match split_first_colon s with
    | Some (p, rest) => p :: Split rest colon
    | None => [s]
    end.
Proof.
  induction s as [|a s IH]; [done|]. simpl.
  destruct (decide (a = colon)); [done|]. rewrite IH.
  by destruct (split_first_colon s) as [[p rest]|].
Qed.

Lemma Split_head s : ∃ t, Split s colon = until_colon s :: t.
Proof.
  induction s as [|a s [t IH]]; simpl; [by eexists|].
  destruct (decide (a = colon)); [by eexists|]. rewrite IH. by eexists.
Qed.

Lemma split_first_colon_None s :
  split_first_colon s = None ↔ contains_byte colon s = false.
Proof.
  induction s as [|a s IH]; [done|]. simpl.
  destruct (decide (a = colon)) as [->|Hne].
  - rewrite bool_decide_eq_true_2 by done. simpl. split; discriminate.
  - rewrite bool_decide_eq_false_2 by done. simpl.
    rewrite fmap_None. exact IH.
Qed.

Lemma until_colon_id s : contains_byte colon s = false → until_colon s = s.
Proof.
  induction s as [|a s IH]; [done|].
  intros [Hne Hs]%contains_byte_cons_false. simpl.
  rewrite decide_False by done. by rewrite IH.
Qed.

Lemma scan_tokens_line line rest :
  contains_byte LF line = false →
  scan_tokens (line +:+ String LF rest) = line :: scan_tokens rest.
Proof.
  induction line as [|a s IH].
  - intros _. reflexivity.
  - intros [Hne Hs]%contains_byte_cons_false. rewrite app_cons. simpl.
    rewrite decide_False by done. by rewrite IH.
Qed.

Lemma ends_with_CR_app s a t :
  ends_with_CR (s +:+ String a t) = ends_with_CR (String a t).
Proof.
  induction s as [|c s IH]; [done|]. rewrite app_cons.
  destruct s as [|c' s']; [done|]. exact IH.
Qed.

Lemma dropCR_id s : ends_with_CR s = false → dropCR s = s.
Proof.
  induction s as [|c s IH]; [done|]. simpl.
  destruct s as [|c' s'].
  - intros Hc%bool_decide_eq_false. by rewrite decide_False.
  - intros Hs. by rewrite IH.
Qed.

(** ** The lines [Save] writes and what [Load] makes of them *)

Lemma save_bytes_acc (ord : list (string * string)) acc :
  foldl (λ buf kv, buf +:+ format_entry kv.1 kv.2) acc ord
  = acc +:+ save_bytes ord.
Proof.
  unfold save_bytes. revert acc.
  induction ord as [|kv ord IH]; intros acc; simpl.
  - by rewrite string_app_nil_r.
  - rewrite (IH (acc +:+ _)), (IH (EmptyString +:+ _)), app_nil_l'.
    by rewrite string_app_assoc.
Qed.

Lemma save_bytes_cons kv ord :
  save_bytes (kv :: ord) = line_of kv +:+ String LF (save_bytes ord).
Proof.
  unfold save_bytes at 1. simpl. rewrite save_bytes_acc.
  unfold format_entry, line_of.
  rewrite app_nil_l', !string_app_assoc, !app_cons, ?string_app_assoc.
  reflexivity.
Qed.

Lemma storable_line_no_LF kv :
  storable_entry kv → contains_byte LF (line_of kv) = false.
Proof.
  intros (_ & Hk & _ & Hv & _). unfold line_of.
  rewrite contains_byte_app, Hk. simpl. by rewrite Hv.
Qed.

Lemma scan_tokens_save_bytes ord :
  Forall storable_entry ord → scan_tokens (save_bytes ord) = line_of <$> ord.
Proof.
  induction 1 as [|kv ord Hkv _ IH]; [done|].
  rewrite save_bytes_cons, scan_tokens_line by by apply storable_line_no_LF.
  by rewrite IH.
Qed.

Lemma storable_line_fits kv : storable_entry kv → token_fits (line_of kv) = true.
Proof.
  intros (_ & _ & _ & _ & _ & Hlen). unfold token_fits, line_of.
  apply bool_decide_eq_true. rewrite string_length_app. simpl. lia.
Qed.

Lemma storable_line_dropCR kv : storable_entry kv → dropCR (line_of kv) = line_of kv.
Proof.
  intros (_ & _ & _ & _ & Hcr & _). apply dropCR_id. unfold line_of.
  rewrite ends_with_CR_app. by destruct kv as [k [|c v]]; simpl in *.
Qed.

Lemma readLines_save_bytes ord :
  Forall storable_entry ord →
  readLines (Readable (save_bytes ord)) = Return (line_of <$> ord).
Proof.
  intros Hs. unfold readLines. rewrite scan_tokens_save_bytes by done.
  assert (Hfit : forallb token_fits (line_of <$> ord) = true).
  { apply Is_true_true, forallb_True, Forall_fmap. eapply Forall_impl; [exact Hs|].
    intros kv Hkv. simpl. apply Is_true_true. by apply storable_line_fits. }
  rewrite Hfit. f_equal. rewrite <- list_fmap_compose.
  apply Forall_fmap_ext_1. eapply Forall_impl; [exact Hs|].
  intros kv Hkv. simpl. by apply storable_line_dropCR.
Qed.

Lemma load_line_eq m line :
  load_line m line
  = match split_first_colon line with
    | Some (p, rest) => Return (<[p := until_colon rest]> m)
    | None => Panic "index out of range"
    end.
Proof.
  unfold load_line. rewrite Split_first.
  destruct (split_first_colon line) as [[p rest]|]; [|done].
  by destruct (Split_head rest) as [t ->].
Qed.

Lemma for_each_load_ok lines m :
  Forall (λ line, contains_byte colon line = true) lines →
  for_each load_line lines m = Return (foldl line_entry m lines).
Proof.
  intros Hall. revert m.
  induction Hall as [|line lines Hline _ IH]; intros m; [done|].
  simpl. rewrite load_line_eq. unfold line_entry at 2.
  destruct (split_first_colon line) as [[p rest]|] eqn:Hs.
  - simpl. apply IH.
  - apply split_first_colon_None in Hs. congruence.
Qed.

Lemma for_each_load_panic lines m :
  Exists (λ line, contains_byte colon line = false) lines →
  for_each load_line lines m = Panic "index out of range".
Proof.
  intros Hex. revert m.
  induction Hex as [line lines Hline|line lines _ IH]; intros m; simpl;
    rewrite load_line_eq.
  - apply split_first_colon_None in Hline. by rewrite Hline.
  - destruct (split_first_colon line) as [[p rest]|]; [|done].
    simpl. apply IH.
Qed.

Lemma Load_readable directory fs data :
  entry fs indexFile = Regular (Readable data) →
  Load directory fs
  = (lines ← readLines (Readable data);
     m ← for_each load_line lines ∅;
     Return (mkIndex directory m)).
Proof. intros H. unfold Load. by rewrite H. Qed.

Lemma split_first_colon_app k v :
  contains_byte colon k = false →
  split_first_colon (k +:+ String colon v) = Some (k, v).
Proof.
  induction k as [|a k IH].
  - intros _. reflexivity.
  - intros [Hne Hk]%contains_byte_cons_false. rewrite app_cons. simpl.
    rewrite decide_False by done. by rewrite IH.
Qed.

Lemma line_entry_line_of m kv :
  storable_entry kv → line_entry m (line_of kv) = <[kv.1 := kv.2]> m.
Proof.
  intros (Hk & _ & Hv & _). unfold line_entry, line_of.
  rewrite split_first_colon_app by done. by rewrite until_colon_id.
Qed.

Lemma foldl_line_entry_line_of ord m :
  Forall storable_entry ord →
  foldl line_entry m (line_of <$> ord)
  = foldl (λ m kv, <[kv.1 := kv.2]> m) m ord.
Proof.
  intros Hall. revert m.
  induction Hall as [|kv ord Hkv _ IH]; intros m; [done|].
  simpl. rewrite line_entry_line_of by done. apply IH.
Qed.

Lemma foldl_insert_list_to_map (l : list (string * string))
    (m0 : gmap string string) :
  NoDup l.*1 →
  foldl (λ m kv, <[kv.1 := kv.2]> m) m0 l = list_to_map l ∪ m0.
Proof.
  revert m0. induction l as [|[k v] l IH]; intros m0; simpl.
  - intros _. by rewrite (left_id_L ∅ (∪)).
  - intros [Hk Hnd]%NoDup_cons. rewrite IH by done.
    rewrite <- insert_union_l. symmetry. apply insert_union_r.
    by apply not_elem_of_list_to_map_1.
Qed.

Lemma storable_Forall m ord :
  ranges m ord → storable m → Forall storable_entry ord.
Proof.
  intros Hr Hs. apply Forall_forall. intros [k v] Hin.
  apply Hs. by apply (ranges_elem_of m ord).
Qed.

(** ** The directory entry [Save] writes *)

Lemma compare_refl s : String.compare s s = Eq.
Proof.
  pose proof (String.compare_antisym s s) as H.
  destruct (String.compare s s); simpl in H; congruence.
Qed.

Lemma get_child_put_child name n children :
  get_child name (put_child name n children) = Some n.
Proof.
  induction children as [|[k x] rest IH]; simpl.
  - by rewrite decide_True.
  - destruct (String.compare name k) eqn:Hc; simpl.
    + by rewrite decide_True.
    + by rewrite decide_True.
    + rewrite decide_False; [exact IH|].
      intros ->. rewrite compare_refl in Hc. discriminate.
Qed.

Lemma put_child_put_child name n n' children :
  put_child name n (put_child name n' children) = put_child name n children.
Proof.
  induction children as [|[k x] rest IH]; simpl.
  - by rewrite compare_refl.
  - destruct (String.compare name k) eqn:Hc; simpl.
    + by rewrite compare_refl.
    + by rewrite compare_refl.
    + by rewrite Hc, IH.
Qed.

(** ** The writer of [Save] *)

Lemma take_drop_bytes n s : take_bytes n s +:+ drop_bytes n s = s.
Proof.
  revert s. induction n as [|n IH]; intros [|c s]; try done.
  simpl. rewrite app_cons. by rewrite IH.
Qed.

Lemma drop_bytes_length s : drop_bytes (String.length s) s = EmptyString.
Proof. induction s as [|c s IH]; [done|]. exact IH. Qed.

Lemma length_zero_empty s : String.length s = 0%nat → s = EmptyString.
Proof. by destruct s. Qed.

Lemma accepts_prefix dev a b : accepts dev (a +:+ b) → accepts dev a.
Proof.
  destruct dev as [|room e]; [done|]. simpl. rewrite string_length_app. lia.
Qed.

Lemma file_write_accepts dev written bs :
  accepts dev (written +:+ bs) →
  file_write dev written bs = (String.length bs, None, written +:+ bs).
Proof.
  destruct dev as [|room e]; [done|]. simpl. rewrite string_length_app.
  intros H. by rewrite (proj2 (Nat.leb_le _ _)) by lia.
Qed.

(** The bytes a writer has taken: those in the file, then those held. *)
Lemma Flush_accepts dev w :
  w_err w = None → accepts dev (w_file w +:+ w_buf w) →
  Flush dev w = (None, mkWriter None EmptyString (w_file w +:+ w_buf w)).
Proof.
  destruct w as [err buf content]. simpl. intros -> Hacc. unfold Flush. simpl.
  unfold Buffered. simpl. destruct (String.length buf =? 0)%nat eqn:Hb.
  - apply Nat.eqb_eq, length_zero_empty in Hb as ->.
    by rewrite string_app_nil_r.
  - by rewrite file_write_accepts.
Qed.

Lemma WriteString_loop_accepts fuel dev w s :
  w_err w = None → accepts dev ((w_file w +:+ w_buf w) +:+ s) →
  w_err (WriteString_loop fuel dev w s).1 = None
  ∧ (w_file (WriteString_loop fuel dev w s).1
       +:+ w_buf (WriteString_loop fuel dev w s).1)
      +:+ (WriteString_loop fuel dev w s).2
    = (w_file w +:+ w_buf w) +:+ s.
Proof.
  revert w s. induction fuel as [|fuel IH]; intros w s Herr Hacc; [done|].
  simpl. destruct ((Available w <? String.length s)%nat && _); [|done].
  destruct (Buffered w =? 0)%nat eqn:Hb.
  - apply Nat.eqb_eq, length_zero_empty in Hb.
    rewrite Hb, string_app_nil_r in Hacc.
    rewrite file_write_accepts by done.
    rewrite drop_bytes_length.
    destruct (IH (mkWriter None (w_buf w) (w_file w +:+ s)) EmptyString)
      as [H1 H2]; [done|simpl; by rewrite Hb, !string_app_nil_r|].
    split; [exact H1|]. rewrite H2. simpl.
    by rewrite Hb, !string_app_nil_r.
  - set (n := Available w).
    assert (Hsplit : (w_file w +:+ w_buf w) +:+ s
                     = (w_file w +:+ (w_buf w +:+ take_bytes n s))
                         +:+ drop_bytes n s).
    { rewrite <- (take_drop_bytes n s) at 1. by rewrite !string_app_assoc. }
    rewrite Hsplit in Hacc.
    rewrite (Flush_accepts dev (mkWriter (w_err w) _ (w_file w)));
      [|done|by eapply accepts_prefix].
    simpl.
    destruct (IH (mkWriter None EmptyString
                    (w_file w +:+ w_buf w +:+ take_bytes n s))
                 (drop_bytes n s)) as [H1 H2];
      [done|simpl; by rewrite string_app_nil_r|].
    split; [exact H1|]. rewrite H2, Hsplit. simpl.
    by rewrite string_app_nil_r.
Qed.

Lemma WriteString_accepts dev w s :
  w_err w = None → accepts dev ((w_file w +:+ w_buf w) +:+ s) →
  ∃ w', WriteString dev w s = (None, w')
        ∧ w_err w' = None
        ∧ w_file w' +:+ w_buf w' = (w_file w +:+ w_buf w) +:+ s.
Proof.
  intros Herr Hacc. unfold WriteString.
  destruct (WriteString_loop_accepts 2 dev w s Herr Hacc) as [H1 H2].
  destruct (WriteString_loop 2 dev w s) as [w' s']. simpl in *.
  rewrite H1. eexists. split; [done|]. split; [done|]. simpl.
  by rewrite <- H2, !string_app_assoc.
Qed.

(** The loop of [WriteString] is over after two rounds: in the state
    [WriteString_loop 2] returns, its condition is false. *)
Lemma WriteString_loop_stop fuel dev w s :
  loop_cond w s = false → WriteString_loop fuel dev w s = (w, s).
Proof.
  unfold loop_cond. intros H. destruct fuel; [done|]. simpl. by rewrite H.
Qed.

Lemma file_write_direct_exit dev buf written s :
  loop_cond (mkWriter (file_write dev written s).1.2 buf
               (file_write dev written s).2)
            (drop_bytes (file_write dev written s).1.1 s)
  = false.
Proof.
  unfold loop_cond. destruct dev as [|room e]; simpl.
  - by rewrite drop_bytes_length, andb_false_intro1.
  - destruct (String.length s <=? room - String.length written)%nat; simpl.
    + by rewrite drop_bytes_length, andb_false_intro1.
    + apply andb_false_r.
Qed.

Lemma Flush_buffered dev w :
  w_err (Flush dev w).2 = None → Buffered (Flush dev w).2 = 0%nat.
Proof.
  unfold Flush. destruct (w_err w) as [e|] eqn:He; simpl; [congruence|].
  destruct (Buffered w =? 0)%nat eqn:Hb; [intros _; by apply Nat.eqb_eq|].
  destruct (file_write dev (w_file w) (w_buf w)) as [[n err] content].
  by destruct err.
Qed.

Lemma WriteString_loop_exit dev w s :
  loop_cond (WriteString_loop 2 dev w s).1 (WriteString_loop 2 dev w s).2 = false.
Proof.
  destruct (loop_cond w s) eqn:Hcond;
    [|by rewrite WriteString_loop_stop].
  cbn [WriteString_loop]. fold (loop_cond w s). rewrite Hcond.
  destruct (Buffered w =? 0)%nat.
  - pose proof (file_write_direct_exit dev (w_buf w) (w_file w) s) as Hx.
    destruct (file_write dev (w_file w) s) as [[n err] content].
    simpl in Hx. fold (loop_cond (mkWriter err (w_buf w) content) (drop_bytes n s)).
    by rewrite Hx.
  - set (w1 := mkWriter (w_err w) (w_buf w +:+ take_bytes (Available w) s)
                 (w_file w)).
    set (s1 := drop_bytes (Available w) s).
    fold (loop_cond (Flush dev w1).2 s1).
    destruct (loop_cond (Flush dev w1).2 s1) eqn:Hc; [|exact Hc].
    assert (Hb : Buffered (Flush dev w1).2 = 0%nat).
    { apply Flush_buffered. unfold loop_cond in Hc.
      by apply andb_true_iff in Hc as [_ ?%bool_decide_eq_true]. }
    rewrite Hb. cbn [Nat.eqb].
    pose proof (file_write_direct_exit dev (w_buf (Flush dev w1).2)
                  (w_file (Flush dev w1).2) s1) as Hx.
    destruct (file_write dev (w_file (Flush dev w1).2) s1) as [[k err] content].
    exact Hx.
Qed.

Lemma save_bytes_cons' kv ord :
  save_bytes (kv :: ord) = format_entry kv.1 kv.2 +:+ save_bytes ord.
Proof. unfold save_bytes at 1. simpl. by rewrite save_bytes_acc. Qed.

Lemma save_entries_accepts dev ord w :
  w_err w = None → accepts dev ((w_file w +:+ w_buf w) +:+ save_bytes ord) →
  ∃ w', save_entries dev ord w = (None, w')
        ∧ w_err w' = None
        ∧ w_file w' +:+ w_buf w' = (w_file w +:+ w_buf w) +:+ save_bytes ord.
Proof.
  revert w. induction ord as [|kv ord IH]; intros w Herr Hacc.
  - exists w. split; [done|]. split; [done|].
    by rewrite string_app_nil_r.
  - rewrite save_bytes_cons', <- string_app_assoc in Hacc.
    destruct (WriteString_accepts dev w (format_entry kv.1 kv.2) Herr)
      as (w1 & Hw & Herr1 & Hs1); [by eapply accepts_prefix|].
    simpl. rewrite Hw.
    destruct (IH w1 Herr1) as (w2 & Hw2 & Herr2 & Hs2); [by rewrite Hs1|].
    exists w2. split; [done|]. split; [done|].
    by rewrite Hs2, Hs1, save_bytes_cons', string_app_assoc.
Qed.

Lemma Save_accepts i ord dev fs fs0 :
  os_Create fs indexFile = inr fs0 →
  accepts dev (save_bytes ord) →
  Save i ord dev fs = (None, with_file fs0 indexFile (save_bytes ord)).
Proof.
  intros Hc Hacc. unfold Save. rewrite Hc.
  destruct (save_entries_accepts dev ord (mkWriter None EmptyString EmptyString))
    as (w & -> & Herr & Hs); [done|done|].
  simpl in Hs. rewrite app_nil_l' in Hs.
  rewrite (Flush_accepts dev w Herr) by by rewrite Hs.
  by rewrite Hs.
Qed.

Lemma Save_created i ord dev fs fs' :
  Save i ord dev fs = (None, fs') → ∃ fs0, os_Create fs indexFile = inr fs0.
Proof.
  unfold Save. destruct (os_Create fs indexFile) as [e|fs0]; [done|]. by eexists.
Qed.

Lemma os_Create_Directory fs fs0 :
  os_Create fs indexFile = inr fs0 →
  ∃ rd children,
    fs = Directory rd children
    ∧ fs0 = Directory rd
              (put_child indexFile (Regular (Readable EmptyString)) children).
Proof.
  unfold os_Create.
  destruct fs as [f|rd children| |e]; try discriminate.
  destruct (get_child indexFile children) as [[[d|e|e]|rd' ch'| |e]|];
    try discriminate; intros [= <-]; by exists rd, children.
Qed.

Lemma Save_Directory i ord dev fs fs' :
  Save i ord dev fs = (None, fs') →
  accepts dev (save_bytes ord) →
  ∃ rd children,
    fs = Directory rd children
    ∧ fs' = Directory rd
              (put_child indexFile (Regular (Readable (save_bytes ord))) children).
Proof.
  intros Hs Hacc. destruct (Save_created _ _ _ _ _ Hs) as [fs0 Hc].
  rewrite (Save_accepts i ord dev fs fs0 Hc Hacc) in Hs.
  destruct (os_Create_Directory _ _ Hc) as (rd & children & -> & ->).
  injection Hs as <-. exists rd, children. split; [done|].
  simpl. by rewrite put_child_put_child.
Qed.

Lemma Save_index_bytes i ord dev fs fs' :
  Save i ord dev fs = (None, fs') →
  accepts dev (save_bytes ord) →
  index_bytes fs' = Some (save_bytes ord).
Proof.
  intros Hs Hacc.
  destruct (Save_Directory _ _ _ _ _ Hs Hacc) as (rd & children & -> & ->).
  unfold index_bytes. simpl. by rewrite get_child_put_child.
Qed.

Lemma index_bytes_entry fs data :
  index_bytes fs = Some data → entry fs indexFile = Regular (Readable data).
Proof.
  unfold index_bytes.
  destruct (entry fs indexFile) as [[d|e|e]|rd ch| |e]; try discriminate.
  by intros [= ->].
Qed.

(** ** Save and Load: the claims *)

(** C2, at the input of the package's own test.  The bytes [Save] writes
    follow the order in which [range] visits the map: for the Index
    [{a:"a", b:"b"}] both orders are iteration orders of the map, and they
    give two different files, only one of which is ["a:a\nb:b\n"]. *)
Theorem Save_follows_iteration_order :
  let i := mkIndex "/srv/site" {["a" := "a"; "b" := "b"]} in
  let fs := Directory None [] in
  let sorted := "a:a" +:+ String LF ("b:b" +:+ String LF "") in
  let swapped := "b:b" +:+ String LF ("a:a" +:+ String LF "") in
  ranges (files i) [("a", "a"); ("b", "b")]
  ∧ ranges (files i) [("b", "b"); ("a", "a")]
  ∧ (∃ fs1, Save i [("a", "a"); ("b", "b")] Unlimited fs = (None, fs1)
            ∧ index_bytes fs1 = Some sorted)
  ∧ (∃ fs2, Save i [("b", "b"); ("a", "a")] Unlimited fs = (None, fs2)
            ∧ index_bytes fs2 = Some swapped)
  ∧ swapped ≠ sorted.
Proof.
  simpl. split; [|split; [|split; [|split]]].
  - apply ranges_intro; [by apply (bool_decide_unpack _)|reflexivity].
  - apply ranges_intro; [by apply (bool_decide_unpack _)|by vm_compute].
  - eexists. split; reflexivity.
  - eexists. split; reflexivity.
  - discriminate.
Qed.

(** C3, at inputs the round trip loses.  In each case [Save] returns
    without error and [Load] from the same root does not return the
    entries saved.  When the file system has no room, the error of the
    deferred flush is dropped and the file is left empty: [Load] returns
    the blank Index.  A line feed in a path or in a fingerprint makes
    [Load] panic; a [:] in a path or in a fingerprint and a carriage
    return at the end of a fingerprint change the entry; a line of 65536
    bytes makes [Load] fail with [ErrTooLong]. *)
Lemma Save_Load_roundtrip_fails :
  let fs := Directory None [] in
  let d := "/srv/site" in
  save_then_load (mkIndex d {["a" := "a"]}) [("a", "a")]
    (Full 0 (OSError "no space left on device")) fs
  = (None, Return (mkIndex d ∅))
  ∧ (∅ : gmap string string) ≠ {["a" := "a"]}
  ∧ save_then_load (mkIndex d {[String "a" (String LF "b") := "c"]})
      [(String "a" (String LF "b"), "c")] Unlimited fs
    = (None, Panic "index out of range")
  ∧ save_then_load (mkIndex d {["a" := String "b" (String LF "c")]})
      [("a", String "b" (String LF "c"))] Unlimited fs
    = (None, Panic "index out of range")
  ∧ save_then_load (mkIndex d {["a:b" := "c"]}) [("a:b", "c")] Unlimited fs
    = (None, Return (mkIndex d {["a" := "b"]}))
  ∧ ({["a" := "b"]} : gmap string string) ≠ {["a:b" := "c"]}
  ∧ save_then_load (mkIndex d {["a" := "b:c"]}) [("a", "b:c")] Unlimited fs
    = (None, Return (mkIndex d {["a" := "b"]}))
  ∧ ({["a" := "b"]} : gmap string string) ≠ {["a" := "b:c"]}
  ∧ save_then_load (mkIndex d {["a" := String "c" (String CR "")]})
      [("a", String "c" (String CR ""))] Unlimited fs
    = (None, Return (mkIndex d {["a" := "c"]}))
  ∧ ({["a" := "c"]} : gmap string string) ≠ {["a" := String "c" (String CR "")]}
  ∧ save_then_load (mkIndex d {[repeat_byte "a" (Z.to_nat 65535) := ""]})
      [(repeat_byte "a" (Z.to_nat 65535), "")] Unlimited fs
    = (None, Failure ErrTooLong).
Proof.
  cbv zeta. repeat split; by vm_compute.
Qed.

(** C3, amended.  For every Index whose paths and fingerprints hold no
    [:] and no line feed, whose fingerprints do not end in a carriage
    return and whose lines fit the scanner's buffer, and for every order
    in which [Save] may write the entries: when [Save] returns without
    error and the file system took every byte written, [Load] from the
    same root returns without error the Index with the same directory and
    the same entries. *)
Theorem Save_Load_roundtrip (i : Index) (ord : list (string * string))
    (dev : device) (fs fs' : node) :
  ranges (files i) ord →
  storable (files i) →
  accepts dev (save_bytes ord) →
  Save i ord dev fs = (None, fs') →
  Load (directory i) fs' = Return i.
Proof.
  intros Hr Hs Hacc Hsave.
  pose proof (storable_Forall _ _ Hr Hs) as Hall.
  apply Save_index_bytes, index_bytes_entry in Hsave; [|done].
  rewrite (Load_readable _ _ _ Hsave), readLines_save_bytes by done.
  simpl. rewrite for_each_load_ok.
  - simpl. rewrite foldl_line_entry_line_of by done.
    rewrite foldl_insert_list_to_map by by eapply ranges_NoDup.
    rewrite (right_id_L ∅ (∪)), (ranges_list_to_map _ _ Hr).
    by destruct i.
  - apply Forall_fmap. eapply Forall_impl; [exact Hall|].
    intros kv (Hk & _). simpl. unfold line_of.
    rewrite contains_byte_app. simpl. by rewrite orb_true_r.
Qed.

Lemma Save_Load_roundtrip_witness :
  let i := mkIndex "/srv/site" {["a" := "a"; "b" := "b"]} in
  let ord := [("b", "b"); ("a", "a")] in
  let dev := Full 8 (OSError "no space left on device") in
  let fs := Directory None [("a", Regular (Readable "a"))] in
  ∃ fs', Save i ord dev fs = (None, fs') ∧ Load (directory i) fs' = Return i.
Proof.
  eexists. split; [reflexivity|].
  apply (Save_Load_roundtrip
           (mkIndex "/srv/site" {["a" := "a"; "b" := "b"]})
           [("b", "b"); ("a", "a")]
           (Full 8 (OSError "no space left on device"))
           (Directory None [("a", Regular (Readable "a"))])).
  - apply ranges_intro; [by apply (bool_decide_unpack _)|by vm_compute].
  - intros k v Hkv. simpl in Hkv.
    assert (Hin : (k, v) ∈ [("a", "a"); ("b", "b")]).
    { apply (ranges_elem_of {["a" := "a"; "b" := "b"]}); [|exact Hkv].
      apply ranges_intro; [by apply (bool_decide_unpack _)|reflexivity]. }
    apply list_elem_of_In in Hin. simpl in Hin.
    destruct Hin as [[= <- <-]|[[= <- <-]|[]]];
      (unfold storable_entry; simpl; repeat split; by vm_compute).
  - by vm_compute.
  - reflexivity.
Defined.

(** C5, as the code has it.  When the persisted index file is readable
    and one of its lines has no [:], [Load] does not return an error:
    [parts[1]] is out of range and the call panics. *)
Theorem Load_malformed_line_panics (directory : string) (fs : node)
    (data : string) (lines : list string) :
  entry fs indexFile = Regular (Readable data) →
  readLines (Readable data) = Return lines →
  Exists (λ line, contains_byte colon line = false) lines →
  Load directory fs = Panic "index out of range".
Proof.
  intros Hentry Hlines Hbad.
  rewrite (Load_readable _ _ _ Hentry), Hlines. simpl.
  by rewrite for_each_load_panic.
Qed.

Lemma Load_malformed_line_panics_witness :
  Load "/srv/site"
    (Directory None
       [(".osync", Regular (Readable ("a:1" +:+ String LF "abc")))])
  = Panic "index out of range".
Proof.
  apply (Load_malformed_line_panics _ _ ("a:1" +:+ String LF "abc") ["a:1"; "abc"]).
  - reflexivity.
  - reflexivity.
  - apply Exists_cons_tl, Exists_cons_hd. reflexivity.
Defined.




(** ** Paths *)

Lemma Split_nonempty s sep : Split s sep ≠ [].
Proof.
  destruct s as [|c s]; simpl; [done|].
  destruct (decide (c = sep)); [done|]. by destruct (Split s sep).
Qed.

Lemma Split_snoc s name sep :
  contains_byte sep name = false →
  Split (s +:+ String sep name) sep = Split s sep ++ [name].
Proof.
  intros Hn. induction s as [|c s IH].
  - rewrite app_nil_l'. simpl. rewrite decide_True by done.
    by rewrite Split_no_sep.
  - rewrite app_cons. simpl. destruct (decide (c = sep)).
    + by rewrite IH.
    + rewrite IH. pose proof (Split_nonempty s sep).
      by destruct (Split s sep).
Qed.

Lemma clean_components_snoc rooted stack cs name :
  simple_name name →
  clean_components rooted stack (cs ++ [name])
  = clean_components rooted stack cs ++ [name].
Proof.
  intros (_ & Hne & Hdot & Hdots). revert stack.
  induction cs as [|c cs IH]; intros stack; simpl.
  - rewrite decide_False by (intros [?|?]; done).
    by rewrite decide_False.
  - destruct (decide (c = EmptyString ∨ c = ".")); [apply IH|].
    destruct (decide (c = "..")); [|apply IH].
    destruct stack as [|top below].
    + destruct rooted; apply IH.
    + destruct (decide (top = "..")); apply IH.
Qed.

Lemma join_slash_snoc xs name :
  xs ≠ [] → join_slash (xs ++ [name]) = join_slash xs +:+ String slash name.
Proof.
  induction xs as [|x xs IH]; [done|]. intros _.
  destruct xs as [|y ys]; [done|].
  change (join_slash ((x :: y :: ys) ++ [name]))
    with (x +:+ String slash (join_slash ((y :: ys) ++ [name]))).
  rewrite IH by done.
  change (join_slash (x :: y :: ys)) with (x +:+ String slash (join_slash (y :: ys))).
  by rewrite string_app_assoc, app_cons.
Qed.

Lemma Join_plain d name :
  plain_directory d → simple_name name →
  Join d name = d +:+ String slash name.
Proof.
  intros (Hclean & Hroot & Hdot) Hname.
  destruct d as [|c d]; [done|].
  unfold Join. rewrite app_cons. unfold Clean in *. rewrite <- app_cons.
  rewrite Split_snoc by apply Hname.
  rewrite clean_components_snoc by done.
  set (comps := clean_components (bool_decide (c = slash)) [] (Split (String c d) slash)) in *.
  destruct comps as [|x xs].
  - exfalso. simpl in Hclean. destruct (bool_decide (c = slash)); simpl in Hclean.
    + by apply Hroot.
    + by apply Hdot.
  - rewrite join_slash_snoc by done.
    set (out := join_slash (x :: xs)) in *.
    destruct (bool_decide (c = slash)).
    + rewrite decide_False in Hclean by done. rewrite decide_False by done.
      by rewrite <- Hclean, app_cons.
    + destruct (decide (out = EmptyString)) as [Ho|Ho]; [by rewrite <- Hclean in Hdot|].
      rewrite decide_False; [by rewrite Hclean|].
      destruct out; [done|]. by rewrite app_cons.
Qed.

Lemma strip_prefix_app p s : strip_prefix p (p +:+ s) = Some s.
Proof.
  induction p as [|a p IH]; [by destruct s|].
  rewrite app_cons. simpl. by rewrite decide_True.
Qed.

Lemma TrimPrefix_child d name :
  TrimPrefix (d +:+ String slash name) (d +:+ "/") = name.
Proof.
  unfold TrimPrefix.
  replace (d +:+ String slash name) with ((d +:+ "/") +:+ name)
    by by rewrite string_app_assoc.
  by rewrite strip_prefix_app.
Qed.

Lemma plain_directory_child d name :
  plain_directory d → simple_name name →
  plain_directory (d +:+ String slash name).
Proof.
  intros Hd Hn. pose proof (Join_plain d name Hd Hn) as HJ.
  destruct Hd as (Hclean & _ & _).
  destruct d as [|c d]; [done|]. unfold Join in HJ.
  split; [exact HJ|]. rewrite app_cons.
  split; intros [= _ H]; by destruct d.
Qed.

Lemma located_plain d rel : located d (d +:+ String slash rel) rel.
Proof.
  intros s. unfold TrimPrefix.
  replace ((d +:+ String slash rel) +:+ s) with ((d +:+ "/") +:+ (rel +:+ s))
    by (by rewrite !string_app_assoc, !app_cons, app_nil_l').
  by rewrite strip_prefix_app.
Qed.

Lemma located_child d path rel name :
  located d path rel →
  located d (path +:+ String slash name) (rel +:+ String slash name).
Proof.
  intros H s. rewrite !string_app_assoc, !app_cons. apply H.
Qed.

Lemma located_here d path rel :
  located d path rel → TrimPrefix path (d +:+ "/") = rel.
Proof.
  intros H. specialize (H EmptyString). by rewrite !string_app_nil_r in H.
Qed.

Lemma located_dot name : simple_name name → located "." name name.
Proof.
  intros (Hslash & Hne & Hdot & _) s. unfold TrimPrefix.
  destruct name as [|c r]; [done|]. rewrite app_cons.
  change ("." +:+ "/") with (String "."%char (String slash EmptyString)).
  simpl. destruct (decide ("."%char = c)) as [<-|Hc]; [|done].
  destruct r as [|c2 r2]; [done|]. rewrite app_cons.
  destruct (decide (slash = c2)) as [<-|Hc2]; [|done].
  by simpl in Hslash.
Qed.

Lemma simple_name_plain name : simple_name name → plain_directory name.
Proof.
  intros (Hslash & Hne & Hdot & Hdots).
  split; [|split; [by intros ->|done]].
  destruct name as [|c r]; [done|]. unfold Clean.
  rewrite Split_no_sep by done.
  apply contains_byte_cons_false in Hslash as [Hc _].
  rewrite bool_decide_eq_false_2 by done. simpl.
  destruct (decide (String c r = EmptyString ∨ String c r = "."))
    as [[?|?]|_]; [done|done|].
  by destruct (decide (String c r = "..")).
Qed.

Lemma Join_dot name : simple_name name → Join "." name = name.
Proof.
  intros Hn. pose proof Hn as (Hslash & Hne & Hdot & Hdots).
  unfold Join. change ("." +:+ String slash name)
    with (String "."%char (EmptyString +:+ String slash name)).
  unfold Clean. rewrite <- app_cons, Split_snoc by done.
  change (bool_decide ("."%char = slash)) with false.
  change (Split "." slash) with ["."].
  simpl.
  destruct (decide (name = EmptyString ∨ name = ".")) as [[?|?]|_]; [done|done|].
  destruct (decide (name = "..")); [done|]. simpl.
  by destruct name.
Qed.

(** The paths of the entries of the root directory. *)
Lemma root_child d name :
  clean_directory d → simple_name name →
  plain_directory (Join d name) ∧ located d (Join d name) name.
Proof.
  intros [Hclean Hroot] Hn. destruct (decide (d = ".")) as [->|Hdot].
  - rewrite Join_dot by done.
    split; [by apply simple_name_plain|by apply located_dot].
  - assert (Hd : plain_directory d) by (by repeat split).
    rewrite Join_plain by done.
    split; [by apply plain_directory_child|apply located_plain].
Qed.

(** ** [filepath.Join] on any directory path *)

Lemma strip_prefix_Some p s r : strip_prefix p s = Some r → s = p +:+ r.
Proof.
  revert s r. induction p as [|a p IH]; intros s r; simpl.
  - intros [= ->]. by rewrite app_nil_l'.
  - destruct s as [|b s]; [done|].
    destruct (decide (a = b)) as [->|]; [|done].
    intros H. rewrite app_cons. f_equal. by apply IH.
Qed.


Lemma TrimPrefix_no_slash name p :
  contains_byte slash name = false → TrimPrefix name (p +:+ "/") = name.
Proof.
  intros Hn. unfold TrimPrefix.
  destruct (strip_prefix (p +:+ "/") name) as [r|] eqn:Hs; [|done].
  apply strip_prefix_Some in Hs. exfalso. rewrite Hs in Hn.
  rewrite !contains_byte_app in Hn.
  apply orb_false_iff in Hn as [[_ Hn]%orb_false_iff _]. done.
Qed.

Lemma clean_components_ok rooted stack cs :
  Forall (λ c, c ≠ EmptyString ∧ c ≠ ".") stack →
  Forall (λ c, c ≠ EmptyString ∧ c ≠ ".") (clean_components rooted stack cs).
Proof.
  revert stack. induction cs as [|c cs IH]; intros stack Hst; simpl.
  - by apply Forall_rev.
  - destruct (decide (c = EmptyString ∨ c = ".")) as [|Hc]; [by apply IH|].
    assert (Hok : c ≠ EmptyString ∧ c ≠ ".") by (split; intros ->; apply Hc; auto).
    destruct (decide (c = "..")); [|apply IH; by constructor].
    destruct stack as [|top below].
    + destruct rooted; apply IH; [done|by constructor].
    + destruct (decide (top = "..")); apply IH; [by constructor|].
      by apply Forall_cons in Hst as [_ ?].
Qed.

Lemma join_slash_ok comps :
  Forall (λ c, c ≠ EmptyString ∧ c ≠ ".") comps → comps ≠ [] →
  join_slash comps ≠ EmptyString ∧ join_slash comps ≠ ".".
Proof.
  intros Hok Hne. destruct comps as [|x [|y rest]]; [done| |].
  - by apply Forall_cons in Hok as [? _].
  - apply Forall_cons in Hok as [[Hx _] _].
    change (join_slash (x :: y :: rest))
      with (x +:+ String slash (join_slash (y :: rest))).
    destruct x as [|c x]; [done|]. rewrite app_cons.
    split; [done|]. intros [= _ H]. by destruct x.
Qed.

(** [filepath.Join(d, name)] for any directory path [d] but the empty one:
    [name] is put after [Clean(d)]. *)
Lemma Join_general d name :
  d ≠ EmptyString → simple_name name →
  (Clean d = "." ∧ Join d name = name)
  ∨ (Clean d = "/" ∧ Join d name = String slash name)
  ∨ (Clean d ≠ "." ∧ d ≠ "/" ∧ Join d name = Clean d +:+ String slash name).
Proof.
  intros Hd Hname. destruct d as [|c d]; [done|].
  unfold Join. rewrite app_cons. unfold Clean. rewrite <- app_cons.
  rewrite Split_snoc by apply Hname.
  rewrite clean_components_snoc by done.
  pose proof (clean_components_ok (bool_decide (c = slash)) []
                (Split (String c d) slash) (List.Forall_nil _)) as Hok.
  destruct Hname as (_ & Hne & _).
  destruct (clean_components (bool_decide (c = slash)) []
              (Split (String c d) slash)) as [|x xs] eqn:Hcomps.
  - simpl. destruct (bool_decide (c = slash)); simpl.
    + right. by left.
    + left. split; [done|]. by destruct name.
  - right. right. rewrite join_slash_snoc by done.
    destruct (join_slash_ok (x :: xs) Hok) as [Ho1 Ho2]; [done|].
    set (out := join_slash (x :: xs)) in *.
    destruct (bool_decide (c = slash)) eqn:Hc.
    + rewrite !(decide_False (P := String slash _ = EmptyString)) by done.
      split; [done|]. split; [|by rewrite app_cons].
      intros [= -> ->]. by vm_compute in Hcomps.
    + rewrite (decide_False (P := out = EmptyString)) by done.
      rewrite decide_False by (destruct out; [done|by rewrite app_cons]).
      split; [done|]. split; [|done].
      intros [= -> ->]. by vm_compute in Hc.
Qed.

(** Under a directory path of [relative_root], the path the walk gives an
    entry of the root is cut down to the entry's name. *)
Lemma root_key d name :
  relative_root d → simple_name name →
  TrimPrefix (Join d name) (d +:+ "/") = name.
Proof.
  intros [Hdot|[Hclean Hroot]] Hname.
  - assert (Join d name = name) as ->; [|apply TrimPrefix_no_slash, Hname].
    destruct d as [|c d].
    + unfold Join. destruct name; [by destruct Hname as (_ & ? & _)|].
      by destruct (simple_name_plain _ Hname) as [? _].
    + destruct (Join_general (String c d) name) as [[_ ?]|[[H _]|(H & _)]];
        try done; by rewrite Hdot in H.
  - destruct (root_child d name) as [_ Hloc]; [done..|].
    by apply located_here.
Qed.






(** ** Compute: one regular file in the root directory *)

Lemma visit_child d ign name f m :
  plain_directory d → simple_name name →
  visit d ign (Join d name) (Some (Regular f)) None m
  = if map_exist ign name then Return m
    else sum ← sha1sum f; Return (<[name := sum]> m).
Proof.
  intros Hd Hn. unfold visit. simpl.
  by rewrite Join_plain, TrimPrefix_child.
Qed.

Lemma bind_Return {A B} (a : A) (k : A → outcome B) : (Return a ≫= k) = k a.
Proof. reflexivity. Qed.

Lemma visit_directory d ign path rd children err m :
  visit d ign path (Some (Directory rd children)) err m = Return m.
Proof. reflexivity. Qed.







Example sha1_abc :
  hex (sha1 (bytes_of_string "abc")) = "a9993e364706816aba3e25717850c26c9cd0d89d".
Proof. by vm_compute. Qed.

Example sha1_two_blocks :
  hex (sha1 (bytes_of_string
         "abcdbcdecdefdefgefghfghighijhijkijkljklmklmnlmnomnopnopq"))
  = "84983e441c3bd26ebaae4aa1f95129e5e54670f1".
Proof. by vm_compute. Qed.

Lemma clean_relative d : clean_directory d → relative_root d.
Proof. intros H. by right. Qed.

Lemma visit_root_child d ign name f m :
  relative_root d → simple_name name →
  visit d ign (Join d name) (Some (Regular f)) None m
  = if map_exist ign name then Return m
    else sum ← sha1sum f; Return (<[name := sum]> m).
Proof.
  intros Hd Hn. unfold visit. simpl. by rewrite root_key.
Qed.



(** ** Compute: the claims *)




(** C6, as the code has it.  An error of opening a file to hash is
    returned by [Compute]; an error of reading it ends the process from
    inside the walk ([log.Fatal] in [sha1sum]); and when the directory
    itself cannot be examined, the callback dereferences a nil
    [FileInfo] and the call panics. *)
Theorem Compute_hashing_errors (directory : string) (e : error) :
  Compute directory (Directory None [("a", Regular (OpenFails e))]) = Failure e
  ∧ Compute directory (Directory None [("a", Regular (ReadFails e))]) = Fatal e
  ∧ Compute directory (NoStat e)
    = Panic "invalid memory address or nil pointer dereference".
Proof.
  repeat split; by vm_compute.
Qed.

(* ================================================================== *)
(** * Further properties of the package *)

(** ** Diff *)

(** X1.  What [Diff] reports, for every pair of indexes and every pair of
    iteration orders: a path is in the changed list exactly when current
    has it with a fingerprint other than the one read from previous (the
    empty string when previous has no entry); it is in the deleted list
    exactly when previous has it and current does not; no path is in both
    lists, no path is twice in a list, and a path with the same
    fingerprint on both sides is in neither. *)
Theorem Diff_classification (previous current : Index)
    (oo oi : list (string * string)) (p : string) :
  ranges (files current) oo → ranges (files previous) oi →
  let changed := (Diff previous current oo oi).1 in
  let deleted := (Diff previous current oo oi).2 in
  (p ∈ changed ↔
     ∃ sum, files current !! p = Some sum ∧ map_index (files previous) p ≠ sum)
  ∧ (p ∈ deleted ↔ is_Some (files previous !! p) ∧ files current !! p = None)
  ∧ ¬ (p ∈ changed ∧ p ∈ deleted)
  ∧ NoDup changed ∧ NoDup deleted
  ∧ (∀ sum, files previous !! p = Some sum → files current !! p = Some sum →
       (p ∉ changed) ∧ (p ∉ deleted)).
Proof.
  intros Ho Hi changed deleted.
  pose proof (elem_of_changed previous current oo oi p Ho) as Hc.
  pose proof (elem_of_deleted previous current oo oi p Hi) as Hd.
  destruct (Diff_NoDup previous current oo oi Ho Hi) as [Hn1 Hn2].
  split; [exact Hc|]. split; [exact Hd|]. split; [|split; [exact Hn1|split; [exact Hn2|]]].
  - intros [[sum [Hl _]]%Hc [_ Hn]%Hd]. congruence.
  - intros sum Hp Hcur. split.
    + intros [sum' [Hl Hne]]%Hc. apply Hne. unfold map_index.
      rewrite Hp. simpl. congruence.
    + intros [_ Hn]%Hd. congruence.
Qed.

Lemma Diff_classification_witness :
  let previous := mkIndex "/srv/site" {["a" := "a"; "b" := "b"]} in
  let current := mkIndex "/srv/site" {["a" := "1"; "c" := "c"]} in
  let oo := [("c", "c"); ("a", "1")] in
  let oi := [("b", "b"); ("a", "a")] in
  ranges (files current) oo ∧ ranges (files previous) oi
  ∧ ("b" ∈ (Diff previous current oo oi).2
     ↔ is_Some (files previous !! "b") ∧ files current !! "b" = None).
Proof.
  assert (H1 : ranges {["a" := "1"; "c" := "c"]} [("c", "c"); ("a", "1")]).
  { apply ranges_intro; [by apply (bool_decide_unpack _)|by vm_compute]. }
  assert (H2 : ranges {["a" := "a"; "b" := "b"]} [("b", "b"); ("a", "a")]).
  { apply ranges_intro; [by apply (bool_decide_unpack _)|by vm_compute]. }
  split; [exact H1|]. split; [exact H2|].
  exact (proj1 (proj2 (Diff_classification
           (mkIndex "/srv/site" {["a" := "a"; "b" := "b"]})
           (mkIndex "/srv/site" {["a" := "1"; "c" := "c"]})
           [("c", "c"); ("a", "1")] [("b", "b"); ("a", "a")] "b" H1 H2))).
Defined.

Lemma filter_all {A} (P : A → Prop) `{!∀ x, Decision (P x)} (l : list A) :
  Forall P l → filter P l = l.
Proof.
  induction 1 as [|x l Hx _ IH]; [done|].
  rewrite filter_cons, decide_True by done. by rewrite IH.
Qed.

Lemma filter_none {A} (P : A → Prop) `{!∀ x, Decision (P x)} (l : list A) :
  Forall (λ x, ¬ P x) l → filter P l = [].
Proof.
  induction 1 as [|x l Hx _ IH]; [done|].
  by rewrite filter_cons, decide_False.
Qed.

Lemma ranges_empty o : ranges ∅ o → o = [].
Proof.
  unfold ranges. rewrite map_to_list_empty. apply Permutation_nil_r.
Qed.

(** X2.  The first run.  Against a previous Index without entries (what
    [Load] returns when nothing was persisted) nothing is deleted, and
    when no fingerprint of current is empty the changed list is all the
    paths of current, in the order the map is visited. *)
Theorem Diff_from_blank (previous current : Index)
    (oo oi : list (string * string)) :
  files previous = ∅ →
  ranges (files current) oo → ranges (files previous) oi →
  (∀ k, files current !! k ≠ Some "") →
  Diff previous current oo oi = (oo.*1, []).
Proof.
  intros He Ho Hi Hne. unfold Diff. rewrite Diff_run_eq. simpl.
  rewrite He in *. apply ranges_empty in Hi as ->.
  rewrite (filter_all (is_changed ∅)); [done|].
  apply Forall_forall. intros [k v] Hin. unfold is_changed, map_index. simpl.
  rewrite lookup_empty. simpl. intros <-.
  apply (Hne k). by apply (ranges_elem_of _ oo).
Qed.

Lemma Diff_from_blank_witness :
  let previous := mkIndex "/srv/site" ∅ in
  let current := mkIndex "/srv/site" {["a" := "1"; "c" := "c"]} in
  Diff previous current [("c", "c"); ("a", "1")] [] = (["c"; "a"], []).
Proof.
  apply (Diff_from_blank (mkIndex "/srv/site" ∅)
           (mkIndex "/srv/site" {["a" := "1"; "c" := "c"]})
           [("c", "c"); ("a", "1")] []).
  - reflexivity.
  - apply ranges_intro; [by apply (bool_decide_unpack _)|by vm_compute].
  - apply ranges_intro; [constructor|reflexivity].
  - intros k Hk. simpl in Hk.
    destruct (decide (k = "a")) as [->|Ha]; [by vm_compute in Hk|].
    rewrite lookup_insert_ne in Hk by done.
    destruct (decide (k = "c")) as [->|Hc]; [by vm_compute in Hk|].
    by rewrite lookup_singleton_ne in Hk.
Defined.

(** X3.  The tree emptied.  Against a current Index without entries
    nothing is changed and every path of previous is deleted, in the
    order the map is visited. *)
Theorem Diff_to_blank (previous current : Index)
    (oo oi : list (string * string)) :
  files current = ∅ →
  ranges (files current) oo →
  Diff previous current oo oi = ([], oi.*1).
Proof.
  intros He Ho. unfold Diff. rewrite Diff_run_eq. simpl.
  rewrite He in *. apply ranges_empty in Ho as ->.
  rewrite (filter_all (is_deleted ∅)); [done|].
  apply Forall_forall. intros [k v] _. unfold is_deleted. simpl.
  apply lookup_empty.
Qed.

Lemma Diff_to_blank_witness :
  Diff (mkIndex "/srv/site" {["a" := "a"; "b" := "b"]}) (mkIndex "/srv/site" ∅)
       [] [("b", "b"); ("a", "a")]
  = ([], ["b"; "a"]).
Proof.
  apply (Diff_to_blank (mkIndex "/srv/site" {["a" := "a"; "b" := "b"]})
           (mkIndex "/srv/site" ∅) [] [("b", "b"); ("a", "a")]).
  - reflexivity.
  - apply ranges_intro; [constructor|reflexivity].
Defined.

(** X4.  The lists [Diff] returns follow the two loops: the changed list
    is a subsequence of the paths in the order [other.files] is visited,
    the deleted list a subsequence of the paths in the order [i.files] is
    visited, so neither is longer than the map it comes from. *)
Theorem Diff_follows_iteration (i other : Index)
    (oo oi : list (string * string)) :
  (Diff i other oo oi).1 `sublist_of` oo.*1
  ∧ (Diff i other oo oi).2 `sublist_of` oi.*1
  ∧ (length (Diff i other oo oi).1 ≤ length oo)%nat
  ∧ (length (Diff i other oo oi).2 ≤ length oi)%nat.
Proof.
  unfold Diff. rewrite Diff_run_eq. simpl.
  assert (H1 : (filter (is_changed (files i)) oo).*1 `sublist_of` oo.*1)
    by apply fmap_sublist, sublist_filter.
  assert (H2 : (filter (is_deleted (files other)) oi).*1 `sublist_of` oi.*1)
    by apply fmap_sublist, sublist_filter.
  repeat split; try done.
  - apply sublist_length in H1. by rewrite !length_fmap in *.
  - apply sublist_length in H2. by rewrite !length_fmap in *.
Qed.

(** ** Load *)

Lemma for_each_invariant {A S} (P : S → Prop) (body : S → A → outcome S)
    (xs : list A) :
  Forall (λ x, ∀ s s', P s → body s x = Return s' → P s') xs →
  ∀ s s', P s → for_each body xs s = Return s' → P s'.
Proof.
  induction 1 as [|x xs Hx _ IH]; intros s s' Hs; simpl.
  - by intros [= <-].
  - destruct (body s x) as [s1| | |] eqn:Hb; simpl; try discriminate.
    apply IH. by eapply Hx.
Qed.

Lemma for_each_load_outcome lines m :
  (∃ m', for_each load_line lines m = Return m')
  ∨ for_each load_line lines m = Panic "index out of range".
Proof.
  revert m. induction lines as [|line lines IH]; intros m; simpl.
  - left. by eexists.
  - rewrite load_line_eq.
    destruct (split_first_colon line) as [[p rest]|]; simpl; [apply IH|by right].
Qed.

(** X5.  How [Load] can end, for every directory tree: it never ends the
    process; an Index it returns carries the directory it was asked for;
    an error it returns is the error of opening or reading the index file
    or the scanner's [ErrTooLong]; and its only panic is the index out of
    range of a line without separator. *)
Theorem Load_outcomes (d : string) (fs : node) :
  match Load d fs with
  | Return i => directory i = d
  | Failure e =>
      os_Open (entry fs indexFile) = OpenFails e
      ∨ os_Open (entry fs indexFile) = ReadFails e
      ∨ e = ErrTooLong
  | Panic msg => msg = "index out of range"
  | Fatal _ => False
  end.
Proof.
  unfold Load. destruct (os_IsNotExist _); [done|].
  destruct (os_Open (entry fs indexFile)) as [data|e|e]; simpl; [|by left|by right; left].
  destruct (forallb token_fits (scan_tokens data)); simpl; [|by right; right].
  destruct (for_each_load_outcome (dropCR <$> scan_tokens data) ∅) as [[m' ->]| ->];
    by simpl.
Qed.

(** X6.  Without a persisted index, or with an empty one, [Load] returns
    the blank Index of the directory and no error. *)
Theorem Load_blank (d : string) (fs : node) :
  entry fs indexFile = NoStat ErrNotExist
  ∨ entry fs indexFile = Regular (Readable EmptyString) →
  Load d fs = Return (mkIndex d ∅).
Proof.
  unfold Load. by intros [-> | ->].
Qed.

Lemma Load_blank_witness :
  Load "/srv/site" (Directory None [("a", Regular (Readable "a"))])
  = Return (mkIndex "/srv/site" ∅)
  ∧ Load "/srv/site" (NoStat ErrNotExist) = Return (mkIndex "/srv/site" ∅)
  ∧ Load "/srv/site" (Directory None [(".osync", Regular (Readable ""))])
    = Return (mkIndex "/srv/site" ∅).
Proof.
  split; [|split].
  - apply (Load_blank "/srv/site"). by left.
  - apply (Load_blank "/srv/site"). by left.
  - apply (Load_blank "/srv/site"). by right.
Defined.

Lemma split_first_colon_Some line p rest :
  split_first_colon line = Some (p, rest) →
  line = p +:+ String colon rest ∧ contains_byte colon p = false.
Proof.
  revert p. induction line as [|a s IH]; intros p; [done|]. simpl.
  destruct (decide (a = colon)) as [->|Hne].
  - by intros [= <- <-].
  - destruct (split_first_colon s) as [[p' rest']|]; [|done].
    simpl. intros [= <- <-]. destruct (IH p' eq_refl) as [-> Hp].
    split; [done|]. simpl. by rewrite bool_decide_eq_false_2.
Qed.

Lemma until_colon_no_colon s : contains_byte colon (until_colon s) = false.
Proof.
  induction s as [|a s IH]; [done|]. simpl.
  destruct (decide (a = colon)); [done|]. simpl.
  by rewrite bool_decide_eq_false_2.
Qed.

Lemma until_colon_contains c s :
  contains_byte c s = false → contains_byte c (until_colon s) = false.
Proof.
  induction s as [|a s IH]; [done|].
  intros [Hne Hs]%contains_byte_cons_false. simpl.
  destruct (decide (a = colon)); [done|].
  apply contains_byte_cons_false. auto.
Qed.

Lemma dropCR_contains c s :
  contains_byte c s = false → contains_byte c (dropCR s) = false.
Proof.
  induction s as [|a s IH]; [done|].
  intros [Hne Hs]%contains_byte_cons_false. simpl.
  destruct s as [|b s'].
  - destruct (decide (a = CR)); [done|]. by apply contains_byte_cons_false.
  - apply contains_byte_cons_false. auto.
Qed.

Lemma scan_tokens_no_LF data :
  Forall (λ t, contains_byte LF t = false) (scan_tokens data).
Proof.
  induction data as [|a s IH]; simpl; [constructor|].
  destruct (decide (a = LF)) as [->|Hne]; [by constructor|].
  destruct (scan_tokens s) as [|h t].
  - repeat constructor. simpl. by rewrite bool_decide_eq_false_2.
  - apply Forall_cons in IH as [Hh Ht]. constructor; [|done].
    apply contains_byte_cons_false. auto.
Qed.

Lemma readLines_no_LF f lines :
  readLines f = Return lines → Forall (λ t, contains_byte LF t = false) lines.
Proof.
  destruct f as [data|e|e]; simpl; try discriminate.
  destruct (forallb token_fits (scan_tokens data)); [|discriminate].
  intros [= <-]. apply Forall_fmap.
  eapply Forall_impl; [apply scan_tokens_no_LF|].
  intros t Ht. simpl. by apply dropCR_contains.
Qed.

Lemma load_line_clean m line m' :
  contains_byte LF line = false →
  clean_entries m → load_line m line = Return m' → clean_entries m'.
Proof.
  intros HLF Hm. rewrite load_line_eq.
  destruct (split_first_colon line) as [[p rest]|] eqn:Hs; [|discriminate].
  intros [= <-]. destruct (split_first_colon_Some _ _ _ Hs) as [-> Hp].
  rewrite contains_byte_app in HLF. apply orb_false_iff in HLF as [HLFp HLFr].
  apply contains_byte_cons_false in HLFr as [_ HLFr].
  intros k v. destruct (decide (p = k)) as [<-|Hne].
  - rewrite lookup_insert_eq. intros [= <-].
    repeat split; auto using until_colon_no_colon, until_colon_contains.
  - rewrite lookup_insert_ne by done. apply Hm.
Qed.

(** X7.  Every entry of an Index [Load] returns has a path and a
    fingerprint without [:] and without line feed, whatever the bytes of
    the persisted file. *)
Theorem Load_entries_clean (d : string) (fs : node) (i : Index)
    (k v : string) :
  Load d fs = Return i → files i !! k = Some v →
  contains_byte colon k = false ∧ contains_byte colon v = false
  ∧ contains_byte LF k = false ∧ contains_byte LF v = false.
Proof.
  unfold Load. destruct (os_IsNotExist _).
  { intros [= <-]. simpl. by rewrite lookup_empty. }
  destruct (readLines (os_Open (entry fs indexFile))) as [lines| | |] eqn:Hr;
    simpl; try discriminate.
  destruct (for_each load_line lines ∅) as [m| | |] eqn:Hf; simpl; try discriminate.
  intros [= <-]. simpl.
  assert (Hm : clean_entries m); [|apply Hm].
  eapply (for_each_invariant clean_entries); [| |exact Hf].
  - eapply Forall_impl; [by eapply readLines_no_LF|].
    intros line HLF s s' Hs. simpl. by apply load_line_clean.
  - intros k' v'. by rewrite lookup_empty.
Qed.

Lemma Load_entries_clean_witness :
  contains_byte colon "a" = false ∧ contains_byte colon "b" = false
  ∧ contains_byte LF "a" = false ∧ contains_byte LF "b" = false.
Proof.
  apply (Load_entries_clean "/srv/site"
           (Directory None [(".osync", Regular (Readable "a:b:c"))])
           (mkIndex "/srv/site" {["a" := "b"]}) "a" "b").
  - by vm_compute.
  - reflexivity.
Defined.

Lemma line_entry_other m line p :
  line_path line ≠ Some p → line_entry m line !! p = m !! p.
Proof.
  unfold line_path, line_entry.
  destruct (split_first_colon line) as [[q rest]|]; simpl; [|done].
  intros Hne. apply lookup_insert_ne. congruence.
Qed.

Lemma foldl_line_entry_other lines m p :
  Forall (λ l, line_path l ≠ Some p) lines →
  foldl line_entry m lines !! p = m !! p.
Proof.
  intros Hall. revert m.
  induction Hall as [|line lines Hl _ IH]; intros m; [done|].
  simpl. rewrite IH. by apply line_entry_other.
Qed.

(** X8.  When a path is on several lines of the persisted file, the last
    line counts: the fingerprint [Load] returns for a path is the one of
    the last line entered under that path. *)
Theorem Load_last_line_wins (d : string) (fs : node) (data : string)
    (before after : list string) (line p rest : string) :
  entry fs indexFile = Regular (Readable data) →
  readLines (Readable data) = Return (before ++ line :: after) →
  Forall (λ l, contains_byte colon l = true) (before ++ line :: after) →
  split_first_colon line = Some (p, rest) →
  Forall (λ l, line_path l ≠ Some p) after →
  ∃ i, Load d fs = Return i ∧ files i !! p = Some (until_colon rest).
Proof.
  intros Hentry Hlines Hall Hline Hafter.
  rewrite (Load_readable _ _ _ Hentry), Hlines. simpl.
  rewrite for_each_load_ok by done. simpl. eexists. split; [done|]. simpl.
  rewrite foldl_app. simpl. rewrite foldl_line_entry_other by done.
  unfold line_entry. rewrite Hline. apply lookup_insert_eq.
Qed.

Lemma Load_last_line_wins_witness :
  ∃ i, Load "/srv/site"
         (Directory None
            [(".osync",
              Regular (Readable ("a:1" +:+ String LF ("a:2" +:+ String LF "b:3"))))])
       = Return i
       ∧ files i !! "a" = Some "2".
Proof.
  apply (Load_last_line_wins "/srv/site" _
           ("a:1" +:+ String LF ("a:2" +:+ String LF "b:3"))
           ["a:1"] ["b:3"] "a:2" "a" "2").
  - reflexivity.
  - reflexivity.
  - repeat constructor.
  - reflexivity.
  - repeat constructor. by vm_compute.
Defined.

(** ** readLines *)









(** ** Save *)


Lemma Save_tree i ord dev fs err fs' :
  Save i ord dev fs = (err, fs') →
  fs' = fs
  ∨ ∃ rd children content,
      fs = Directory rd children
      ∧ fs' = Directory rd
                (put_child indexFile (Regular (Readable content)) children).
Proof.
  unfold Save. destruct (os_Create fs indexFile) as [e|fs0] eqn:Hc.
  - intros [= _ <-]. by left.
  - destruct (os_Create_Directory _ _ Hc) as (rd & children & -> & ->).
    destruct (save_entries dev ord _) as [err' w].
    destruct (Flush dev w) as [e' w']. intros [= _ <-]. right.
    exists rd, children, (w_file w'). split; [done|].
    simpl. by rewrite put_child_put_child.
Qed.



(** X11.  [Save] replaces the persisted file whole: after a save that
    returned without error, a second save returns what it would have
    returned, and leaves the tree it would have left, on the tree before
    the first save; when the file system takes every byte of the second
    save, the file holds the lines of the second Index only. *)
Theorem Save_overwrites (i1 i2 : Index) (ord1 ord2 : list (string * string))
    (dev1 dev2 : device) (fs fs1 : node) :
  Save i1 ord1 dev1 fs = (None, fs1) →
  Save i2 ord2 dev2 fs1 = Save i2 ord2 dev2 fs
  ∧ (accepts dev2 (save_bytes ord2) →
     ∃ fs2, Save i2 ord2 dev2 fs1 = (None, fs2)
            ∧ index_bytes fs2 = Some (save_bytes ord2)).
Proof.
  intros Hs.
  destruct (Save_created _ _ _ _ _ Hs) as [fs0 Hc].
  destruct (os_Create_Directory _ _ Hc) as (rd & ch & -> & ->).
  destruct (Save_tree _ _ _ _ _ _ Hs) as [->|(rd' & ch' & content & [= <- <-] & ->)].
  { split; [done|]. intros Hacc. rewrite (Save_accepts _ _ _ _ _ Hc Hacc).
    eexists. split; [done|]. unfold index_bytes. simpl.
    by rewrite !get_child_put_child. }
  assert (Hc1 : os_Create
                  (Directory rd
                     (put_child indexFile (Regular (Readable content)) ch))
                  indexFile
                = inr (Directory rd
                         (put_child indexFile (Regular (Readable EmptyString)) ch))).
  { unfold os_Create. rewrite get_child_put_child.
    by rewrite put_child_put_child. }
  split.
  - unfold Save. by rewrite Hc1, Hc.
  - intros Hacc. rewrite (Save_accepts _ _ _ _ _ Hc1 Hacc).
    eexists. split; [done|]. unfold index_bytes. simpl.
    by rewrite !get_child_put_child.
Qed.

Lemma Save_overwrites_witness :
  ∃ fs1 fs2,
    Save (mkIndex "/srv/site" {["a" := "a"]}) [("a", "a")] Unlimited test_tree
    = (None, fs1)
    ∧ Save (mkIndex "/srv/site" {["b" := "b"]}) [("b", "b")] Unlimited fs1
      = (None, fs2)
    ∧ index_bytes fs2 = Some ("b:b" +:+ String LF "").
Proof.
  eexists.
  destruct (Save_overwrites
              (mkIndex "/srv/site" {["a" := "a"]})
              (mkIndex "/srv/site" {["b" := "b"]})
              [("a", "a")] [("b", "b")] Unlimited Unlimited test_tree _ eq_refl)
    as [_ H].
  destruct (H I) as [fs2 [H2 Hb]].
  exists fs2. split; [reflexivity|]. split; [exact H2|exact Hb].
Defined.

Lemma take_bytes_all n s : (String.length s ≤ n)%nat → take_bytes n s = s.
Proof.
  revert n. induction s as [|c s IH]; intros [|n] H; simpl in *; try done; [lia|].
  rewrite IH; [done|lia].
Qed.

Lemma WriteString_small dev w s :
  w_err w = None →
  (Buffered w + String.length s ≤ defaultBufSize)%nat →
  WriteString dev w s = (None, mkWriter None (w_buf w +:+ s) (w_file w)).
Proof.
  intros Herr Hlen. unfold WriteString.
  rewrite WriteString_loop_stop; [by rewrite Herr|].
  unfold loop_cond, Available. apply andb_false_intro1, Nat.ltb_ge. lia.
Qed.

Lemma save_entries_small dev ord w :
  w_err w = None →
  (Buffered w + String.length (save_bytes ord) ≤ defaultBufSize)%nat →
  save_entries dev ord w
  = (None, mkWriter None (w_buf w +:+ save_bytes ord) (w_file w)).
Proof.
  revert w. induction ord as [|kv ord IH]; intros w Herr Hlen.
  - simpl. destruct w as [err buf content]. simpl in *. subst.
    by rewrite string_app_nil_r.
  - rewrite save_bytes_cons', string_length_app in Hlen. simpl.
    rewrite WriteString_small by (done || lia).
    rewrite IH; [|done|].
    + simpl. by rewrite save_bytes_cons', string_app_assoc.
    + unfold Buffered in *. simpl. rewrite string_length_app. lia.
Qed.

(** X21.  The error of the last write is lost.  When the lines of the
    Index are at most 4096 bytes in all, they reach the file only in the
    deferred [w.Flush()], whose error is dropped: [Save] returns without
    error whenever the file can be created, and the file holds the bytes
    the file system took, none at all when it has no room. *)
Theorem Save_drops_flush_error (i : Index) (ord : list (string * string))
    (dev : device) (fs fs0 : node) :
  os_Create fs indexFile = inr fs0 →
  (String.length (save_bytes ord) ≤ defaultBufSize)%nat →
  Save i ord dev fs
  = (None,
     with_file fs0 indexFile
       match dev with
       | Unlimited => save_bytes ord
       | Full room _ => take_bytes room (save_bytes ord)
       end).
Proof.
  intros Hc Hlen. unfold Save. rewrite Hc.
  rewrite save_entries_small by done.
  rewrite app_nil_l'. unfold Flush, Buffered. cbn [w_err w_buf w_file].
  destruct (String.length (save_bytes ord) =? 0)%nat eqn:Hz.
  - apply Nat.eqb_eq, length_zero_empty in Hz. rewrite Hz.
    by destruct dev as [|[|room] e].
  - destruct dev as [|room e]; [done|]. simpl. rewrite Nat.sub_0_r.
    destruct (String.length (save_bytes ord) <=? room)%nat eqn:Hr; [|done].
    apply Nat.leb_le in Hr. simpl. by rewrite take_bytes_all.
Qed.

Lemma Save_drops_flush_error_witness :
  Save (mkIndex "/srv/site" {["a" := "a"; "b" := "b"]})
       [("a", "a"); ("b", "b")]
       (Full 3 (OSError "no space left on device")) (Directory None [])
  = (None, Directory None [(".osync", Regular (Readable "a:a"))]).
Proof.
  rewrite (Save_drops_flush_error
             (mkIndex "/srv/site" {["a" := "a"; "b" := "b"]})
             [("a", "a"); ("b", "b")]
             (Full 3 (OSError "no space left on device")) (Directory None [])
             (Directory None [(".osync", Regular (Readable ""))])).
  - reflexivity.
  - reflexivity.
  - apply Nat.leb_le. by vm_compute.
Defined.

(** ** Save, Load and Diff together *)

Lemma Load_after_Save (i : Index) (ord : list (string * string))
    (dev : device) (fs fs' : node) :
  ranges (files i) ord → storable (files i) →
  accepts dev (save_bytes ord) →
  Save i ord dev fs = (None, fs') →
  Load (directory i) fs' = Return i.
Proof.
  intros Hr Hs Hacc Hsave.
  pose proof (storable_Forall _ _ Hr Hs) as Hall.
  apply Save_index_bytes, index_bytes_entry in Hsave; [|done].
  rewrite (Load_readable _ _ _ Hsave), readLines_save_bytes by done.
  simpl. rewrite for_each_load_ok.
  - simpl. rewrite foldl_line_entry_line_of by done.
    rewrite foldl_insert_list_to_map by by eapply ranges_NoDup.
    rewrite (right_id_L ∅ (∪)), (ranges_list_to_map _ _ Hr).
    by destruct i.
  - apply Forall_fmap. eapply Forall_impl; [exact Hall|].
    intros kv (Hk & _). simpl. unfold line_of.
    rewrite contains_byte_app. simpl. by rewrite orb_true_r.
Qed.

Lemma Diff_same_files (i other : Index) (oo oi : list (string * string)) :
  files i = files other →
  ranges (files other) oo → ranges (files i) oi →
  Diff i other oo oi = ([], []).
Proof.
  intros He Ho Hi. unfold Diff. rewrite Diff_run_eq. simpl.
  rewrite filter_none, (filter_none (is_deleted _)); [done| |].
  - apply Forall_forall. intros [k v] Hin. unfold is_deleted. simpl.
    apply (ranges_elem_of (files i) oi) in Hin; [|done]. rewrite <- He, Hin. done.
  - apply Forall_forall. intros [k v] Hin. unfold is_changed, map_index. simpl.
    apply (ranges_elem_of (files other) oo) in Hin; [|done].
    rewrite He, Hin. simpl. auto.
Qed.

(** X12.  After a sync, nothing is left to do: when the current Index has
    been saved without error and the file system took every byte written,
    the Index loaded from the same root, compared with an Index of the
    same entries (the tree unchanged), gives an empty changed list and an
    empty deleted list.  This needs the entries to be ones the text
    format carries. *)
Theorem Save_Load_Diff_empty (saved current : Index)
    (ord oo oi : list (string * string)) (dev : device) (fs fs' : node) :
  ranges (files saved) ord → storable (files saved) →
  accepts dev (save_bytes ord) →
  Save saved ord dev fs = (None, fs') →
  files current = files saved →
  ranges (files current) oo → ranges (files saved) oi →
  ∃ previous,
    Load (directory saved) fs' = Return previous
    ∧ Diff previous current oo oi = ([], []).
Proof.
  intros Hr Hs Hacc Hsave He Ho Hi. exists saved.
  split; [exact (Load_after_Save saved ord dev fs fs' Hr Hs Hacc Hsave)|].
  apply Diff_same_files; [by symmetry|done|done].
Qed.

Lemma Save_Load_Diff_empty_witness :
  let saved := mkIndex "/srv/site" {["a" := "a"; "b" := "b"]} in
  let current := mkIndex "/srv/site" {["a" := "a"; "b" := "b"]} in
  ∃ fs' previous,
    Save saved [("b", "b"); ("a", "a")] Unlimited (Directory None [])
    = (None, fs')
    ∧ Load (directory saved) fs' = Return previous
    ∧ Diff previous current [("a", "a"); ("b", "b")] [("b", "b"); ("a", "a")]
      = ([], []).
Proof.
  assert (H1 : ranges {["a" := "a"; "b" := "b"]} [("a", "a"); ("b", "b")]).
  { apply ranges_intro; [by apply (bool_decide_unpack _)|reflexivity]. }
  assert (H2 : ranges {["a" := "a"; "b" := "b"]} [("b", "b"); ("a", "a")]).
  { apply ranges_intro; [by apply (bool_decide_unpack _)|by vm_compute]. }
  assert (Hst : storable {["a" := "a"; "b" := "b"]}).
  { intros k v Hkv.
    assert (Hin : (k, v) ∈ [("a", "a"); ("b", "b")])
      by (by apply (ranges_elem_of {["a" := "a"; "b" := "b"]})).
    apply list_elem_of_In in Hin. simpl in Hin.
    destruct Hin as [[= <- <-]|[[= <- <-]|[]]];
      (unfold storable_entry; simpl; repeat split; by vm_compute). }
  eexists.
  destruct (Save_Load_Diff_empty
              (mkIndex "/srv/site" {["a" := "a"; "b" := "b"]})
              (mkIndex "/srv/site" {["a" := "a"; "b" := "b"]})
              [("b", "b"); ("a", "a")] [("a", "a"); ("b", "b")]
              [("b", "b"); ("a", "a")] Unlimited (Directory None []) _
              H2 Hst I eq_refl eq_refl H1 H2) as [previous [HL HD]].
  exists previous. split; [reflexivity|]. split; [exact HL|exact HD].
Defined.

(** ** Compute: what the walk keeps *)

Lemma Compute_eq d fs :
  Compute d fs
  = (ign ← ignore_outcome fs;
     m ← walk (visit d ign) d fs ∅;
     Return (mkIndex d m)).
Proof. reflexivity. Qed.

Lemma walk_Directory {S} (fn : string → option node → option error → S → outcome S)
    path children (s : S) :
  walk fn path (Directory None children) s
  = (s1 ← fn path (Some (Directory None children)) None s;
     for_each (λ s c, walk fn (Join path c.1) c.2 s) children s1).
Proof.
  simpl. destruct (fn path (Some (Directory None children)) None s) as [s1| | |];
    simpl; try done.
  clear s. revert s1. induction children as [|[name child] rest IH]; intros s1;
    simpl; [done|].
  destruct (walk fn (Join path name) child s1); simpl; [apply IH|done..].
Qed.

Lemma walk_invariant {S} (P : S → Prop)
    (fn : string → option node → option error → S → outcome S) :
  (∀ path info err s s', P s → fn path info err s = Return s' → P s') →
  ∀ n path s s', P s → walk fn path n s = Return s' → P s'.
Proof.
  intros Hfn n.
  induction n as [f|rd children IH| |e] using node_forall_ind;
    intros path s s' Hs; try (simpl; by apply Hfn).
  destruct rd as [err|]; [simpl; by apply Hfn|].
  rewrite walk_Directory.
  destruct (fn path (Some (Directory None children)) None s) as [s1| | |] eqn:Hf;
    simpl; try discriminate.
  apply (for_each_invariant P); [|by eapply Hfn].
  eapply Forall_impl; [exact IH|]. intros c Hc s2 s3 Hs2. simpl. by apply Hc.
Qed.

Lemma ignore_lines_exist lines p :
  map_exist (ignore_lines lines) p = true ↔ p ∈ lines.
Proof.
  unfold ignore_lines, map_exist. rewrite bool_decide_eq_true.
  assert (H : ∀ m : gmap string bool,
             is_Some (foldl (λ m line, <[line := true]> m) m lines !! p)
             ↔ p ∈ lines ∨ is_Some (m !! p)).
  { induction lines as [|l lines IH]; intros m; simpl.
    - split; [by right|]. intros [Hin|H]; [by apply elem_of_nil in Hin|done].
    - rewrite IH, elem_of_cons. destruct (decide (l = p)) as [->|Hne].
      + rewrite lookup_insert_eq. split; [by left; left|by right].
      + rewrite lookup_insert_ne by done. split.
        * intros [Hin|Hm]; [by left; right|by right].
        * intros [[Heq|Hin]|Hm]; [congruence|by left|by right]. }
  rewrite H, lookup_empty. split; [|by left].
  intros [Hin|[? ?]]; done.
Qed.

(** X13.  A path listed in the ignore file is never in the Index
    [Compute] returns, whatever the tree holds: regular file, directory
    or nothing at that path. *)
Theorem Compute_never_indexes_ignored (d : string) (fs : node) (i : Index)
    (lines : list string) (p : string) :
  os_Stat (entry fs ignoreFile) = None →
  readLines (os_Open (entry fs ignoreFile)) = Return lines →
  Compute d fs = Return i →
  p ∈ lines → files i !! p = None.
Proof.
  intros Hstat Hlines. rewrite Compute_eq. unfold ignore_outcome.
  rewrite Hstat, Hlines. simpl.
  destruct (walk _ d fs ∅) as [m| | |] eqn:Hw; simpl; try discriminate.
  intros [= <-] Hin. simpl.
  revert p Hin.
  eapply (walk_invariant (λ m, ∀ p, p ∈ lines → m !! p = None)); [| |exact Hw].
  - intros path [n|] err s s' Hs; unfold visit; [|discriminate].
    destruct (IsRegular n); [|by intros [= <-]].
    destruct (map_exist _ _) eqn:Hex; [by intros [= <-]|].
    destruct (sha1sum (os_Open n)) as [sum| | |]; simpl; try discriminate.
    intros [= <-] p Hin. rewrite lookup_insert_ne; [by apply Hs|].
    intros Heq. apply ignore_lines_exist in Hin. congruence.
  - intros p _. apply lookup_empty.
Qed.

Lemma Compute_never_indexes_ignored_witness :
  ∃ i, Compute "/tmp/osync" test_tree = Return i ∧ files i !! "b" = None.
Proof.
  eexists. split; [by vm_compute|].
  eapply (Compute_never_indexes_ignored "/tmp/osync" test_tree _ ["b"] "b").
  - reflexivity.
  - by vm_compute.
  - by vm_compute.
  - by constructor.
Defined.

Lemma length_be_bytes n x : length (be_bytes n x) = n.
Proof. induction n as [|n IH]; simpl; [done|]. by rewrite IH. Qed.

Lemma be_bytes_range n x : Forall (λ b, 0 ≤ b < 256) (be_bytes n x).
Proof.
  induction n as [|n IH]; simpl; constructor; [|done].
  apply Z.mod_pos_bound. lia.
Qed.

Lemma length_sha1 msg : length (sha1 msg) = 20%nat.
Proof. unfold sha1. by rewrite !length_app, !length_be_bytes. Qed.

Lemma sha1_range msg : Forall (λ b, 0 ≤ b < 256) (sha1 msg).
Proof. unfold sha1. rewrite !Forall_app. auto using be_bytes_range. Qed.

Lemma length_hex bs : String.length (hex bs) = (2 * length bs)%nat.
Proof. induction bs as [|b bs IH]; simpl; [done|]. rewrite IH. lia. Qed.

Lemma hex_digit_lower d : 0 ≤ d < 16 → is_lower_hex (hex_digit d) = true.
Proof.
  intros Hd.
  assert (H : d = 0 ∨ d = 1 ∨ d = 2 ∨ d = 3 ∨ d = 4 ∨ d = 5 ∨ d = 6 ∨ d = 7
              ∨ d = 8 ∨ d = 9 ∨ d = 10 ∨ d = 11 ∨ d = 12 ∨ d = 13 ∨ d = 14
              ∨ d = 15) by lia.
  repeat (destruct H as [->|H]; [reflexivity|]). by subst.
Qed.

Lemma hex_lower bs :
  Forall (λ b, 0 ≤ b < 256) bs → string_forall is_lower_hex (hex bs) = true.
Proof.
  induction 1 as [|b bs Hb _ IH]; [done|]. simpl.
  rewrite !hex_digit_lower, IH; [done| |].
  - apply Z.mod_pos_bound. lia.
  - split; [apply Z.div_pos; lia|apply Z.div_lt_upper_bound; lia].
Qed.

Lemma sha1sum_hex f sum : sha1sum f = Return sum → sha1_hex sum.
Proof.
  destruct f as [data|e|e]; unfold sha1sum; try discriminate.
  intros H.
  assert (sum = hex (sha1 (bytes_of_string data))) as -> by congruence.
  split.
  - by rewrite length_hex, length_sha1.
  - apply hex_lower, sha1_range.
Qed.

Lemma Compute_fingerprints_aux (d : string) (fs : node) (i : Index)
    (k v : string) :
  Compute d fs = Return i → files i !! k = Some v → sha1_hex v.
Proof.
  rewrite Compute_eq.
  destruct (ignore_outcome fs) as [ign| | |]; simpl; try discriminate.
  destruct (walk _ d fs ∅) as [m| | |] eqn:Hw; simpl; try discriminate.
  intros [= <-] Hkv. simpl in Hkv.
  revert k v Hkv.
  eapply (walk_invariant (λ m, ∀ k v, m !! k = Some v → sha1_hex v));
    [| |exact Hw].
  - intros path [n|] err s s' Hs; unfold visit; [|discriminate].
    destruct (IsRegular n); [|by intros [= <-]].
    destruct (map_exist _ _); [by intros [= <-]|].
    destruct (sha1sum (os_Open n)) as [sum| | |] eqn:Hsum; simpl;
      try discriminate.
    intros [= <-] k v. destruct (decide (TrimPrefix path (d +:+ "/") = k)) as [->|Hne].
    + rewrite lookup_insert_eq. intros [= <-]. by eapply sha1sum_hex.
    + rewrite lookup_insert_ne by done. apply Hs.
  - intros k v. by rewrite lookup_empty.
Qed.

(** X14.  Every fingerprint in the Index [Compute] returns is made of 40
    lower-case hexadecimal digits; in particular none is empty. *)
Theorem Compute_fingerprints (d : string) (fs : node) (i : Index)
    (k v : string) :
  Compute d fs = Return i → files i !! k = Some v →
  String.length v = 40%nat ∧ string_forall is_lower_hex v = true
  ∧ v ≠ EmptyString.
Proof.
  intros Hc Hkv.
  destruct (Compute_fingerprints_aux d fs i k v Hc Hkv) as [Hlen Hhex].
  repeat split; [done..|]. intros ->. discriminate.
Qed.

Lemma Compute_fingerprints_witness :
  String.length "86f7e437faa5a7fce15d1ddcb9eaeaea377667b8" = 40%nat
  ∧ string_forall is_lower_hex "86f7e437faa5a7fce15d1ddcb9eaeaea377667b8" = true
  ∧ "86f7e437faa5a7fce15d1ddcb9eaeaea377667b8" ≠ EmptyString.
Proof.
  eapply (Compute_fingerprints "/tmp/osync" test_tree _ "a").
  - by vm_compute.
  - by vm_compute.
Defined.

(** X15.  With the current Index computed by [Compute], [Diff] misses no
    new file: a path is in the changed list exactly when current has it
    and previous does not have it with the same fingerprint. *)
Theorem Diff_after_Compute (d : string) (fs : node) (previous current : Index)
    (oo oi : list (string * string)) (p : string) :
  Compute d fs = Return current →
  ranges (files current) oo →
  p ∈ (Diff previous current oo oi).1
  ↔ ∃ sum, files current !! p = Some sum ∧ files previous !! p ≠ Some sum.
Proof.
  intros Hc Ho. rewrite (elem_of_changed previous current oo oi p Ho).
  split; intros [sum [Hl Hne]]; exists sum; (split; [done|]).
  - intros Hp. apply Hne. unfold map_index. by rewrite Hp.
  - unfold map_index. destruct (files previous !! p) as [s|]; simpl; [congruence|].
    intros <-.
    destruct (Compute_fingerprints_aux d fs current p "" Hc Hl) as [Hlen _].
    discriminate.
Qed.

Lemma Diff_after_Compute_witness :
  let previous := mkIndex "/tmp/osync" ∅ in
  let current :=
    mkIndex "/tmp/osync"
      {["a" := "86f7e437faa5a7fce15d1ddcb9eaeaea377667b8";
        ".osyncignore" := "e9d71f5ee7c92d6dc9e92ffdad17b8bd49418f98"]} in
  let oo := [("a", "86f7e437faa5a7fce15d1ddcb9eaeaea377667b8");
             (".osyncignore", "e9d71f5ee7c92d6dc9e92ffdad17b8bd49418f98")] in
  Compute "/tmp/osync" test_tree = Return current
  ∧ ("a" ∈ (Diff previous current oo []).1
     ↔ ∃ sum, files current !! "a" = Some sum ∧ files previous !! "a" ≠ Some sum).
Proof.
  assert (Hc : Compute "/tmp/osync" test_tree
               = Return (mkIndex "/tmp/osync"
                   {["a" := "86f7e437faa5a7fce15d1ddcb9eaeaea377667b8";
                     ".osyncignore" := "e9d71f5ee7c92d6dc9e92ffdad17b8bd49418f98"]}))
    by (by vm_compute).
  split; [exact Hc|].
  apply (Diff_after_Compute "/tmp/osync" test_tree (mkIndex "/tmp/osync" ∅) _ _ [] "a" Hc).
  apply ranges_intro; [by apply (bool_decide_unpack _)|by vm_compute].
Defined.

(** ** Compute: the Index of a whole tree *)

Lemma index_entries_app ign m l1 l2 :
  index_entries ign m (l1 ++ l2) = index_entries ign (index_entries ign m l1) l2.
Proof. unfold index_entries. apply foldl_app. Qed.

Lemma walk_hashable d ign n :
  ∀ path rel m,
    hashable n = true →
    plain_directory path → located d path rel →
    walk (visit d ign) path n m
    = Return (index_entries ign m (node_entries rel n)).
Proof.
  induction n as [f|rd children IH| |e] using node_forall_ind;
    intros path rel m Hh Hp Hl.
  - destruct f as [data|e|e]; try discriminate.
    simpl. unfold visit. simpl. rewrite (located_here _ _ _ Hl).
    by destruct (map_exist ign rel).
  - destruct rd as [err|]; [done|].
    rewrite walk_Directory, visit_directory, bind_Return.
    simpl in Hh. cbn [node_entries].
    revert m. induction IH as [|[name child] rest Hc _ IHrest]; intros m; [done|].
    simpl in Hh. apply andb_true_iff in Hh as [Hh Hrest].
    apply andb_true_iff in Hh as [Hname%bool_decide_eq_true Hchild].
    specialize (IHrest Hrest). simpl in Hc.
    cbn [for_each]. rewrite bind_cons. simpl fst. simpl snd.
    rewrite Join_plain by done.
    rewrite (Hc (path +:+ String slash name) (rel +:+ String slash name) m Hchild).
    + rewrite bind_Return, index_entries_app. apply IHrest.
    + by apply plain_directory_child.
    + by apply located_child.
  - done.
  - discriminate.
Qed.

Lemma root_walk_hashable d ign children m :
  clean_directory d →
  hashable (Directory None children) = true →
  for_each (λ s c, walk (visit d ign) (Join d c.1) c.2 s) children m
  = Return (index_entries ign m (root_entries children)).
Proof.
  intros Hd Hh. simpl in Hh. unfold root_entries. revert m.
  induction children as [|[name child] rest IH]; intros m; [done|].
  simpl in Hh. apply andb_true_iff in Hh as [Hh Hrest].
  apply andb_true_iff in Hh as [Hname%bool_decide_eq_true Hchild].
  cbn [for_each]. rewrite bind_cons. simpl fst. simpl snd.
  destruct (root_child d name Hd Hname) as [Hp Hl].
  rewrite (walk_hashable d ign child _ name m Hchild Hp Hl).
  rewrite bind_Return, index_entries_app. by apply IH.
Qed.




(** X17.  A root directory that cannot be listed is not an error for
    [Compute]: when the ignore file is absent or read without error, the
    error of listing the directory goes to the callback, which does not
    look at it, so the call returns the blank Index, and [Diff] against
    it reports every path of the previous Index as deleted. *)
Theorem Compute_unlistable_root (d : string) (err : error)
    (children : list (string * node)) (ign : gmap string bool)
    (previous : Index) (oi : list (string * string)) :
  ignore_outcome (Directory (Some err) children) = Return ign →
  Compute d (Directory (Some err) children) = Return (mkIndex d ∅)
  ∧ Diff previous (mkIndex d ∅) [] oi = ([], oi.*1).
Proof.
  intros Hign. split.
  - by rewrite Compute_eq, Hign.
  - unfold Diff. rewrite Diff_run_eq. simpl.
    rewrite (filter_all (is_deleted ∅)); [done|].
    apply Forall_forall. intros [k v] _. apply lookup_empty.
Qed.

Lemma Compute_unlistable_root_witness :
  Compute "/srv/site"
    (Directory (Some (OSError "permission denied"))
       [("a", Regular (Readable "a"))])
  = Return (mkIndex "/srv/site" ∅)
  ∧ Diff (mkIndex "/srv/site" {["a" := "86f7e437faa5a7fce15d1ddcb9eaeaea377667b8"]})
         (mkIndex "/srv/site" ∅) []
         [("a", "86f7e437faa5a7fce15d1ddcb9eaeaea377667b8")]
    = ([], ["a"]).
Proof.
  apply (Compute_unlistable_root "/srv/site" (OSError "permission denied")
           [("a", Regular (Readable "a"))] ∅).
  reflexivity.
Defined.

(** ** The run after the first save *)


















(** ** Compute: the first file that fails *)

Lemma for_each_app {A S} (body : S → A → outcome S) (l1 l2 : list A) (s : S) :
  for_each body (l1 ++ l2) s = (s' ← for_each body l1 s; for_each body l2 s').
Proof.
  revert s. induction l1 as [|x l1 IH]; intros s; simpl; [done|].
  destruct (body s x); simpl; [apply IH|done..].
Qed.

(** X20.  No partial Index.  Take a directory named by a clean path other
    than [/] whose ignore file is absent or read without error.  When the
    entries of the root directory before a regular file are walked
    without error and the name of that file is not in the ignore set, a
    failure to open it ends [Compute] with that error and a failure to
    read it ends the process; whatever comes after it in the directory is
    not looked at. *)
Theorem Compute_stops_at_unreadable_file (d : string)
    (before after : list (string * node)) (name : string) (f : file)
    (ign : gmap string bool) (e : error) :
  clean_directory d →
  hashable (Directory None before) = true →
  simple_name name →
  ignore_outcome (Directory None (before ++ (name, Regular f) :: after))
  = Return ign →
  map_exist ign name = false →
  (f = OpenFails e →
   Compute d (Directory None (before ++ (name, Regular f) :: after)) = Failure e)
  ∧ (f = ReadFails e →
     Compute d (Directory None (before ++ (name, Regular f) :: after)) = Fatal e).
Proof.
  intros Hd Hh Hname Hign Hnot.
  assert (H : Compute d (Directory None (before ++ (name, Regular f) :: after))
              = (sum ← sha1sum f;
                 m ← for_each (λ s c, walk (visit d ign) (Join d c.1) c.2 s) after
                       (<[name := sum]> (index_entries ign ∅ (root_entries before)));
                 Return (mkIndex d m))).
  { rewrite Compute_eq, Hign, bind_Return.
    rewrite walk_Directory, visit_directory, bind_Return.
    rewrite for_each_app, root_walk_hashable, bind_Return by done.
    cbn [for_each fst snd walk].
    rewrite visit_root_child by (done || by apply clean_relative).
    rewrite Hnot. unfold os_Open. by destruct (sha1sum f). }
  rewrite H. split; by intros ->.
Qed.

Lemma Compute_stops_at_unreadable_file_witness :
  Compute "/tmp/osync"
    (Directory None
       [("a", Regular (Readable "a"));
        ("b", Regular (OpenFails (OSError "permission denied")));
        ("c", Regular (Readable "c"))])
  = Failure (OSError "permission denied").
Proof.
  apply (Compute_stops_at_unreadable_file "/tmp/osync"
           [("a", Regular (Readable "a"))] [("c", Regular (Readable "c"))]
           "b" (OpenFails (OSError "permission denied")) ∅
           (OSError "permission denied")).
  - by repeat split.
  - reflexivity.
  - by repeat split.
  - reflexivity.
  - reflexivity.
  - reflexivity.
Defined.
